(** * run_evaluation.py: score calculations and segmentation overlay

    A shallow embedding of [scripts/run_evaluation.py] (MIScnn COVID-19
    evaluation script): the three score functions [calc_DSC],
    [calc_Sensitivity], [calc_Specificity] and the compositor
    [overlay_segmentation], together with the part of Python and numpy
    they run on.

    Conventions of the embedding.
    - A numpy array is its shape and its buffer in C order.
    - [np.int64] values are integers with the 64-bit wrap-around written out.
    - A finite [np.float64] value is the rational number it stands for; the
      special values inf and nan are kept, because numpy division produces
      them where Python's own division raises.  The arithmetic of
      [overlay_segmentation] is that of binary64: each operation rounds its
      exact result to the nearest number with a significand of 53 bits,
      ties to even, with gradual underflow below 2^-1022 and overflow to
      inf from 2^1024 on ([Np.fl]).  The score functions take one quotient
      of two integer counts; there the exact quotient stands for the float
      nearest to it ([Np.true_divide]).
    - An [np.uint8] element is a byte, or undetermined where numpy converts
      nan to an integer type (no exception is raised and the value is left
      to the platform).
    - Python exceptions are the [Raise] results of a small error monad. *)

From Stdlib Require Import ZArith QArith Qround Qminmax Qabs Qpower List Bool Lia Lqa.
From Stdlib Require Ascii String.
Import ListNotations.
Open Scope Z_scope.

(** ** Python: exceptions, [try]/[except], [for ... in range(...)] *)

Module Py.

Inductive exn : Type :=
| ZeroDivisionError
| ValueError
| IndexError.

Definition exn_eqb (a b : exn) : bool :=
  match a, b with
  | ZeroDivisionError, ZeroDivisionError => true
  | ValueError, ValueError => true
  | IndexError, IndexError => true
  | _, _ => false
  end.

Inductive result (A : Type) : Type :=
| Ok (a : A)
| Raise (e : exn).
Arguments Ok {A} a.
Arguments Raise {A} e.

Definition bind {A B : Type} (m : result A) (k : A -> result B) : result B :=
  match m with
  | Ok a => k a
  | Raise e => Raise e
  end.

(** [try: body  except caught: handler] *)
Definition try_except {A : Type} (body : result A) (caught : exn)
           (handler : result A) : result A :=
  match body with
  | Ok a => Ok a
  | Raise e => if exn_eqb e caught then handler else Raise e
  end.

(** [range(n)]: empty when [n <= 0]. *)
Definition range (n : Z) : list Z := map Z.of_nat (seq 0 (Z.to_nat n)).

(** [for i in l: s = body(i, s)], the loop state threaded through. *)
Fixpoint for_in {S : Type} (l : list Z) (body : Z -> S -> result S) (s : S)
  : result S :=
  match l with
  | [] => Ok s
  | i :: l' => bind (body i s) (for_in l' body)
  end.

End Py.

Import Py.

Declare Scope py_scope.
Delimit Scope py_scope with py.
Notation "x <- m ;; k" := (Py.bind m (fun x => k))
  (at level 61, m at next level, right associativity) : py_scope.
Open Scope py_scope.

(** ** numpy: scalars *)

Module Np.

(** [np.int64]: two's complement wrap-around. *)
Definition int64 (z : Z) : Z := (z + 2 ^ 63) mod 2 ^ 64 - 2 ^ 63.
Definition int64_add (a b : Z) : Z := int64 (a + b).
Definition int64_mul (a b : Z) : Z := int64 (a * b).

(** [np.float64]: a finite value (as the rational it denotes), the two
    infinities, or nan. *)
Inductive float64 : Type :=
| Fin (q : Q)
| PInf
| NInf
| NaN.

(** Float division as numpy does it: no exception on a zero divisor (a
    RuntimeWarning is printed); 0/0 is nan and x/0 is a signed infinity.
    The finite quotient is kept in lowest terms, so that equal values are
    equal terms. *)
Definition true_divide (x y : Q) : float64 :=
  if Qeq_bool y 0 then
    if Qeq_bool x 0 then NaN
    else if Qle_bool 0 x then PInf else NInf
  else Fin (Qred (x / y)).

(** [a / b] on two [np.int64] scalars: both are converted to float64. *)
Definition int64_truediv (a b : Z) : float64 :=
  true_divide (inject_Z a) (inject_Z b).

(** ** numpy: arrays *)

Record ndarray (A : Type) : Type := mk_ndarray {
  shape : list nat;
  data : list A
}.
Arguments mk_ndarray {A} shape data.
Arguments shape {A} n.
Arguments data {A} n.

Definition size_of (s : list nat) : nat := fold_right Nat.mul 1%nat s.

(** The buffer holds exactly the elements the shape announces. *)
Definition wf {A : Type} (a : ndarray A) : Prop :=
  length (data a) = size_of (shape a).

Definition shape_eqb (s t : list nat) : bool :=
  if list_eq_dec Nat.eq_dec s t then true else false.

(** Element-wise application of a unary function ([np.equal(a, i)],
    [np.logical_not(a)], [a * c], ...). *)
Definition map1 {A B : Type} (f : A -> B) (a : ndarray A) : ndarray B :=
  mk_ndarray (shape a) (map f (data a)).

Fixpoint zip_with {A B C : Type} (f : A -> B -> C) (l : list A) (m : list B)
  : list C :=
  match l, m with
  | x :: l', y :: m' => f x y :: zip_with f l' m'
  | _, _ => []
  end.

(** Element-wise application of a binary function to two arrays.  Arrays of
    one shape are combined position by position.  For unequal shapes numpy
    broadcasts when the axis lengths allow it and raises ValueError
    otherwise; the script only ever combines arrays of one shape, and
    broadcasting is not modelled: every unequal pair raises. *)
Definition map2 {A B C : Type} (f : A -> B -> C)
           (a : ndarray A) (b : ndarray B) : result (ndarray C) :=
  if shape_eqb (shape a) (shape b)
  then Ok (mk_ndarray (shape a) (zip_with f (data a) (data b)))
  else Raise ValueError.

Definition equal (a : ndarray Z) (i : Z) : ndarray bool :=
  map1 (fun x => Z.eqb x i) a.

Definition greater (a : ndarray Z) (i : Z) : ndarray bool :=
  map1 (fun x => Z.ltb i x) a.

Definition logical_not (a : ndarray bool) : ndarray bool := map1 negb a.

Definition logical_and (a b : ndarray bool) : result (ndarray bool) :=
  map2 andb a b.

(** Number of [true] entries of a list. *)
Definition count_true (l : list bool) : nat := length (filter (fun b => b) l).

(** [a.sum()] on a boolean array: an [np.int64] count. *)
Definition sum (a : ndarray bool) : Z := int64 (Z.of_nat (count_true (data a))).

(** [np.min(a)] and [np.max(a)] over all elements; an empty array has no
    minimum and numpy raises ValueError. *)
Definition amin (a : ndarray Q) : result Q :=
  match data a with
  | [] => Raise ValueError
  | x :: l => Ok (fold_left Qmin l x)
  end.

Definition amax (a : ndarray Q) : result Q :=
  match data a with
  | [] => Raise ValueError
  | x :: l => Ok (fold_left Qmax l x)
  end.

(** Rounding to the nearest integer, halves to the even neighbour: what
    [np.around] and [np.round] do with [decimals=0]. *)
Definition rint (q : Q) : Z :=
  let f := Qfloor q in
  match (q - inject_Z f ?= 1 # 2)%Q with
  | Lt => f
  | Gt => f + 1
  | Eq => if Z.even f then f else f + 1
  end.

Definition around (x : float64) : float64 :=
  match x with
  | Fin q => Fin (inject_Z (rint q))
  | other => other
  end.

(** *** binary64 arithmetic

    Every operation on floats rounds its exact result to the nearest
    binary64 value, ties to the value with an even significand, and
    overflows to an infinity: 53 bits of significand, exponents from -1022
    (where the subnormal numbers begin) to 1023.  The sign of zero is not
    kept; no operation of the script tells the two zeros apart. *)

Definition pow2 (e : Z) : Q := Qpower 2 e.

(** The exponent [e] with [2^e <= a < 2^(e+1)], for [a > 0]. *)
Definition ilog2 (a : Q) : Z :=
  let k := Z.log2 (Qnum a) - Z.log2 (Zpos (Qden a)) in
  if Qle_bool (pow2 k) a then k else k - 1.

(** The binade of [a > 0]: its exponent, or -1022 for a subnormal number;
    and [a] rounded to a multiple of the unit in the last place of that
    binade, [2^(e-52)]. *)
Definition binade (a : Q) : Z := Z.max (ilog2 a) (-1022).

Definition round_at (e : Z) (a : Q) : Q :=
  (inject_Z (rint (a / pow2 (e - 52))) * pow2 (e - 52))%Q.

Definition finf (positive : bool) : float64 := if positive then PInf else NInf.

(** Rounding of a real number to binary64. *)
Definition fl (x : Q) : float64 :=
  let q := Qred x in
  if Qeq_bool q 0 then Fin 0
  else
    let a := Qabs q in
    let r := round_at (binade a) a in
    if Qle_bool (pow2 1024) r then finf (Qle_bool 0 q)
    else Fin (Qred (if Qle_bool 0 q then r else - r)).

(** A Python or numpy integer converted to float64. *)
Definition of_int (z : Z) : float64 := fl (inject_Z z).

Definition fneg (x : float64) : float64 :=
  match x with
  | Fin q => Fin (Qred (- q))
  | PInf => NInf
  | NInf => PInf
  | NaN => NaN
  end.

Definition fadd (x y : float64) : float64 :=
  match x, y with
  | NaN, _ | _, NaN => NaN
  | PInf, NInf | NInf, PInf => NaN
  | PInf, _ | _, PInf => PInf
  | NInf, _ | _, NInf => NInf
  | Fin a, Fin b => fl (a + b)
  end.

Definition fsub (x y : float64) : float64 := fadd x (fneg y).

Definition fmul (x y : float64) : float64 :=
  match x, y with
  | NaN, _ | _, NaN => NaN
  | Fin a, Fin b => fl (a * b)
  | Fin a, PInf | PInf, Fin a =>
      if Qeq_bool a 0 then NaN else finf (Qle_bool 0 a)
  | Fin a, NInf | NInf, Fin a =>
      if Qeq_bool a 0 then NaN else finf (negb (Qle_bool 0 a))
  | PInf, PInf | NInf, NInf => PInf
  | PInf, NInf | NInf, PInf => NInf
  end.

Definition fdiv (x y : float64) : float64 :=
  match x, y with
  | NaN, _ | _, NaN => NaN
  | Fin a, Fin b =>
      if Qeq_bool b 0 then
        if Qeq_bool a 0 then NaN else finf (Qle_bool 0 a)
      else fl (a / b)
  | Fin _, PInf | Fin _, NInf => Fin 0
  | PInf, Fin b => finf (Qle_bool 0 b)
  | NInf, Fin b => finf (negb (Qle_bool 0 b))
  | PInf, PInf | PInf, NInf | NInf, PInf | NInf, NInf => NaN
  end.

(** [np.uint8] elements.  [Some b] is the byte [b]; [None] is a byte that
    numpy does not determine: the result of converting nan, an infinity or
    a value outside the range of the type (the conversion is left to the C
    compiler, for which it is undefined; no exception is raised).  Whatever
    is computed from such a byte is undetermined too. *)
Definition uint8 : Type := option Z.

(** Truncation toward zero. *)
Definition trunc (q : Q) : Z :=
  if Qle_bool 0 q then Qfloor q else Qceiling q.

Definition cast_uint8 (q : Q) : uint8 :=
  let t := trunc q in
  if (0 <=? t) && (t <=? 255) then Some t else None.

(** [.astype(np.uint8)] on a float64 element. *)
Definition astype_uint8 (x : float64) : uint8 :=
  match x with
  | Fin q => cast_uint8 q
  | _ => None
  end.

(** Floats computed from [uint8] elements: undetermined when the byte
    was. *)
Definition ufloat : Type := option float64.

(** [c * b], the byte converted to float64 first. *)
Definition umul (c : float64) (b : uint8) : ufloat :=
  option_map (fun z => fmul c (of_int z)) b.

Definition uadd (x : float64) (y : ufloat) : ufloat :=
  option_map (fadd x) y.

Definition uround (x : ufloat) : ufloat := option_map around x.

Definition uastype_uint8 (x : ufloat) : uint8 :=
  match x with
  | Some q => astype_uint8 q
  | None => None
  end.

(** [np.round] on an array of integer type returns the elements as they
    are, and so does [.astype(np.uint8)] on a [uint8] array. *)
Definition round_uint8 (a : ndarray uint8) : ndarray uint8 := map1 (fun b => b) a.
Definition astype_same (a : ndarray uint8) : ndarray uint8 := map1 (fun b => b) a.

Fixpoint interleave3 {A : Type} (a b c : list A) : list A :=
  match a, b, c with
  | x :: a', y :: b', z :: c' => x :: y :: z :: interleave3 a' b' c'
  | _, _, _ => []
  end.

(** [np.stack([a, b, c], axis=-1)]: a new last axis of length 3; in C order
    the three values of one position are adjacent.  Arrays of different
    shapes raise ValueError. *)
Definition stack3 {A : Type} (a b c : ndarray A) : result (ndarray A) :=
  if shape_eqb (shape a) (shape b) && shape_eqb (shape a) (shape c)
  then Ok (mk_ndarray (shape a ++ [3%nat])
                      (interleave3 (data a) (data b) (data c)))
  else Raise ValueError.

(** [np.zeros(s, dtype=np.int)] *)
Definition zeros (s : list nat) : ndarray Z :=
  mk_ndarray s (repeat 0 (size_of s)).

(** [t[k]] on a tuple. *)
Definition tuple_get (t : list nat) (k : nat) : result nat :=
  match nth_error t k with
  | Some n => Ok n
  | None => Raise IndexError
  end.

Fixpoint assign_rows {A : Type} (w : nat) (mask : list bool) (v : list A)
         (d : list A) : list A :=
  match mask with
  | [] => d
  | m :: mask' =>
      (if m then v else firstn w d) ++ assign_rows w mask' v (skipn w d)
  end.

(** [a[mask] = v] as the script uses it: [mask] ranges over all axes of [a]
    but the last, and [v] is as long as that last axis, so that every
    selected row of [a] becomes [v].  A mask whose shape is not the shape
    of [a] without its last axis is an IndexError in numpy, except when it
    has the whole shape of [a]; that use (element selection) and values of
    another length are not modelled and raise here as well. *)
Definition setitem_mask {A : Type} (a : ndarray A) (mask : ndarray bool)
           (v : list A) : result (ndarray A) :=
  if shape_eqb (shape a) (shape mask ++ [length v])
  then Ok (mk_ndarray (shape a) (assign_rows (length v) (data mask) v (data a)))
  else Raise IndexError.

Fixpoint select {A : Type} (c : list bool) (x y : list A) : list A :=
  match c, x, y with
  | b :: c', u :: x', v :: y' => (if b then u else v) :: select c' x' y'
  | _, _, _ => []
  end.

(** [np.where(cond, x, y)] on three arrays of one shape (see [map2] for
    unequal shapes). *)
Definition where_ {A : Type} (c : ndarray bool) (x y : ndarray A)
  : result (ndarray A) :=
  if shape_eqb (shape c) (shape x) && shape_eqb (shape c) (shape y)
  then Ok (mk_ndarray (shape c) (select (data c) (data x) (data y)))
  else Raise ValueError.

(** [np.squeeze(a, axis=-1)]: the last axis is removed when its length is 1.
    numpy raises ValueError for a last axis of another length, and AxisError
    (a ValueError) for an array without axes. *)
Definition squeeze {A : Type} (a : ndarray A) : result (ndarray A) :=
  match rev (shape a) with
  | 1%nat :: r => Ok (mk_ndarray (rev r) (data a))
  | _ => Raise ValueError
  end.

End Np.

(** ** Score calculations *)

(** One turn of the loop of [calc_DSC]: the state is [dice_scores]. *)
Definition calc_DSC_body (truth pred : Np.ndarray Z) (i : Z)
           (dice_scores : list Np.float64) : result (list Np.float64) :=
  try_except
    (let gt := Np.equal truth i in
     let pd := Np.equal pred i in
     both <- Np.logical_and pd gt ;;
     let dice := Np.int64_truediv (Np.int64_mul 2 (Np.sum both))
                                  (Np.int64_add (Np.sum pd) (Np.sum gt)) in
     Ok (dice_scores ++ [dice]))
    ZeroDivisionError
    (Ok (dice_scores ++ [Np.Fin 0])).

Definition calc_DSC (truth pred : Np.ndarray Z) (classes : Z)
  : result (list Np.float64) :=
  for_in (range classes) (calc_DSC_body truth pred) [].

Definition calc_Sensitivity_body (truth pred : Np.ndarray Z) (i : Z)
           (sens_scores : list Np.float64) : result (list Np.float64) :=
  try_except
    (let gt := Np.equal truth i in
     let pd := Np.equal pred i in
     both <- Np.logical_and pd gt ;;
     let sens := Np.int64_truediv (Np.sum both) (Np.sum gt) in
     Ok (sens_scores ++ [sens]))
    ZeroDivisionError
    (Ok (sens_scores ++ [Np.Fin 0])).

Definition calc_Sensitivity (truth pred : Np.ndarray Z) (classes : Z)
  : result (list Np.float64) :=
  for_in (range classes) (calc_Sensitivity_body truth pred) [].

Definition calc_Specificity_body (truth pred : Np.ndarray Z) (i : Z)
           (spec_scores : list Np.float64) : result (list Np.float64) :=
  try_except
    (let not_gt := Np.logical_not (Np.equal truth i) in
     let not_pd := Np.logical_not (Np.equal pred i) in
     both <- Np.logical_and not_pd not_gt ;;
     let spec := Np.int64_truediv (Np.sum both) (Np.sum not_gt) in
     Ok (spec_scores ++ [spec]))
    ZeroDivisionError
    (Ok (spec_scores ++ [Np.Fin 0])).

Definition calc_Specificity (truth pred : Np.ndarray Z) (classes : Z)
  : result (list Np.float64) :=
  for_in (range classes) (calc_Specificity_body truth pred) [].

(** ** Visualization: segmentation overlay *)

(** The first three statements of [overlay_segmentation]: [vol_scaled] and
    [vol_greyscale]. *)
Definition vol_scaled (vol : Np.ndarray Q) : result (Np.ndarray Np.float64) :=
  lo <- Np.amin vol ;;
  hi <- Np.amax vol ;;
  Ok (Np.map1 (fun x => Np.fdiv x (Np.fsub (Np.Fin hi) (Np.Fin lo)))
              (Np.map1 (fun v => Np.fsub (Np.Fin v) (Np.Fin lo)) vol)).

Definition vol_greyscale (vol : Np.ndarray Q) : result (Np.ndarray Np.uint8) :=
  scaled <- vol_scaled vol ;;
  Ok (Np.map1 Np.astype_uint8
        (Np.map1 Np.around
           (Np.map1 (fun x => Np.fmul x (Np.of_int 255)) scaled))).

(** The colour table written into [seg_rgb], one assignment per class. *)
Definition blue : list Z := [0; 0; 255].
Definition red : list Z := [255; 0; 0].

Definition seg_rgb_of (seg : Np.ndarray Z) : result (Np.ndarray Z) :=
  let shp := Np.shape seg in
  s0 <- Np.tuple_get shp 0 ;;
  s1 <- Np.tuple_get shp 1 ;;
  s2 <- Np.tuple_get shp 2 ;;
  let seg_rgb := Np.zeros [s0; s1; s2; 3%nat] in
  seg_rgb <- Np.setitem_mask seg_rgb (Np.equal seg 1) blue ;;
  seg_rgb <- Np.setitem_mask seg_rgb (Np.equal seg 2) blue ;;
  Np.setitem_mask seg_rgb (Np.equal seg 3) red.

(** [alpha = 0.3]: the float nearest to the decimal. *)
Definition alpha : Np.float64 := Np.fl (3 # 10).

Definition overlay_segmentation (vol : Np.ndarray Q) (seg : Np.ndarray Z)
  : result (Np.ndarray Np.uint8) :=
  vol_greyscale <- vol_greyscale vol ;;
  vol_rgb <- Np.stack3 vol_greyscale vol_greyscale vol_greyscale ;;
  seg_rgb <- seg_rgb_of seg ;;
  let segbin := Np.greater seg 0 in
  repeated_segbin <- Np.stack3 segbin segbin segbin ;;
  weighted <- Np.map2 Np.uadd
                (Np.map1 (fun s => Np.fmul alpha (Np.of_int s)) seg_rgb)
                (Np.map1 (Np.umul (Np.fsub (Np.of_int 1) alpha)) vol_rgb) ;;
  Np.where_ repeated_segbin
           (Np.map1 Np.uastype_uint8 (Np.map1 Np.uround weighted))
           (Np.astype_same (Np.round_uint8 vol_rgb)).

(** ** Visualization: what [visualize_evaluation] computes

    The channel axis of the three arrays is squeezed and the volume is
    coloured once after the ground truth and once after the prediction; the
    animation is written to a file named after the case.  The figure, the
    animation and the file system belong to matplotlib and the operating
    system and are not part of the embedding. *)

Definition visualize_overlays (vol : Np.ndarray Q) (truth pred : Np.ndarray Z)
  : result (Np.ndarray Np.uint8 * Np.ndarray Np.uint8) :=
  vol <- Np.squeeze vol ;;
  truth <- Np.squeeze truth ;;
  pred <- Np.squeeze pred ;;
  vol_truth <- overlay_segmentation vol truth ;;
  vol_pred <- overlay_segmentation vol pred ;;
  Ok (vol_truth, vol_pred).

(** Python strings, as lists of characters. *)
Module Str.

Import Ascii String.

Definition str : Type := list ascii.

Definition lit (s : string) : str := list_ascii_of_string s.

Definition is_sign (c : ascii) : bool :=
  (Ascii.eqb c "+" || Ascii.eqb c "-")%bool.

(** [s.zfill(width)]: zeros on the left up to [width] characters, after a
    leading sign if there is one. *)
Definition zfill (s : str) (width : nat) : str :=
  if (width <=? List.length s)%nat then s
  else
    let fill := repeat "0"%char (width - List.length s) in
    match s with
    | c :: rest => if is_sign c then c :: fill ++ rest else fill ++ s
    | [] => fill
    end.

Definition starts_with_sep (b : str) : bool :=
  match b with
  | c :: _ => Ascii.eqb c "/"
  | [] => false
  end.

Definition ends_with_sep (a : str) : bool :=
  match rev a with
  | c :: _ => Ascii.eqb c "/"
  | [] => false
  end.

(** [os.path.join(a, b)] of the POSIX path module. *)
Definition join (a b : str) : str :=
  if starts_with_sep b then b
  else if (match a with [] => true | _ => false end) || ends_with_sep a
       then a ++ b
       else a ++ "/"%char :: b.

Definition visualization_prefix : str := lit "visualization.".
Definition gif_suffix : str := lit ".gif".

(** Case identifiers and the directory the script names, for examples. *)
Definition case_3 : str := lit "3".
Definition case_7 : str := lit "7".
Definition visualization_dir : str := lit "evaluation/visualization".

End Str.

(** [file_name] and [out_path] of [visualize_evaluation]; [case_id] stands
    for the string [str(case_id)]. *)
Definition file_name (case_id : Str.str) : Str.str :=
  Str.visualization_prefix ++ Str.zfill case_id 5 ++ Str.gif_suffix.

Definition out_path (eva_path case_id : Str.str) : Str.str :=
  Str.join eva_path (file_name case_id).

(** ** Vocabulary of the statements *)

(** Number of voxels of [v] that satisfy [f], and number of positions at
    which both [p] and [t] satisfy it.  With [is_class i] these are the sizes
    of the set of voxels labelled [i] and of the intersection of two such
    sets; with [not_class i], of their complements. *)
Definition card (f : Z -> bool) (v : list Z) : nat := length (filter f v).

Definition card2 (f : Z -> bool) (p t : list Z) : nat :=
  length (filter (fun xy => f (fst xy) && f (snd xy)) (combine p t)).

Definition is_class (i x : Z) : bool := x =? i.
Definition not_class (i x : Z) : bool := negb (x =? i).

(** The score as a real number: a finite float equal to [q]. *)
Definition is_value (x : Np.float64) (q : Q) : Prop :=
  exists r, x = Np.Fin r /\ (r == q)%Q.

(** Arrays small enough for their element count, doubled, to fit [np.int64]
    (any array that fits in memory is). *)
Definition fits_int64 {A : Type} (a : Np.ndarray A) : Prop :=
  Z.of_nat (length (Np.data a)) < 2 ^ 62.

(** The value the loop of each score function appends at class [i], when
    the two volumes have one shape (see [calc_DSC_ok] and its siblings). *)
Definition dice_of (truth pred : Np.ndarray Z) (i : Z) : Np.float64 :=
  let gt := Np.equal truth i in
  let pd := Np.equal pred i in
  Np.int64_truediv
    (Np.int64_mul 2 (Np.int64 (Z.of_nat (Np.count_true
                       (Np.zip_with andb (Np.data pd) (Np.data gt))))))
    (Np.int64_add (Np.sum pd) (Np.sum gt)).

Definition sens_of (truth pred : Np.ndarray Z) (i : Z) : Np.float64 :=
  let gt := Np.equal truth i in
  let pd := Np.equal pred i in
  Np.int64_truediv
    (Np.int64 (Z.of_nat (Np.count_true
                 (Np.zip_with andb (Np.data pd) (Np.data gt)))))
    (Np.sum gt).

Definition spec_of (truth pred : Np.ndarray Z) (i : Z) : Np.float64 :=
  let not_gt := Np.logical_not (Np.equal truth i) in
  let not_pd := Np.logical_not (Np.equal pred i) in
  Np.int64_truediv
    (Np.int64 (Z.of_nat (Np.count_true
                 (Np.zip_with andb (Np.data not_pd) (Np.data not_gt)))))
    (Np.sum not_gt).

(** [score_at r i x]: the call returned a list whose element [i] is [x]. *)
Definition score_at (r : result (list Np.float64)) (i : Z) (x : Np.float64)
  : Prop :=
  exists l, r = Ok l /\ nth_error l (Z.to_nat i) = Some x.

(** A score that is a real number of the interval [0, 1]. *)
Definition in_unit_interval (x : Np.float64) : Prop :=
  exists q, x = Np.Fin q /\ (0 <= q <= 1)%Q.

(** The colour of a label: classes 1 and 2 blue, class 3 red, no colour
    (all zero) for any other value. *)
Definition colour_of (label : Z) : list Z :=
  if (label =? 1) || (label =? 2) then blue
  else if label =? 3 then red
  else [0; 0; 0].

(** One element of [np.round(alpha*seg_rgb + (1-alpha)*vol_rgb)
    .astype(np.uint8)]: colour component [s] over greyscale [g]. *)
Definition blend (s : Z) (g : Np.uint8) : Np.uint8 :=
  Np.uastype_uint8
    (Np.uround (Np.uadd (Np.fmul alpha (Np.of_int s))
                        (Np.umul (Np.fsub (Np.of_int 1) alpha) g))).

(** One element of [vol_greyscale], from the intensity [v] and the global
    minimum [lo] and maximum [hi]. *)
Definition grey_of (lo hi v : Q) : Np.uint8 :=
  Np.astype_uint8
    (Np.around
       (Np.fmul (Np.fdiv (Np.fsub (Np.Fin v) (Np.Fin lo))
                         (Np.fsub (Np.Fin hi) (Np.Fin lo)))
                (Np.of_int 255))).

(** The three output channels of a voxel with label [l] and greyscale [g]. *)
Definition pixel (l : Z) (g : Np.uint8) : list Np.uint8 :=
  map (fun s => if 0 <? l then blend s g else g) (colour_of l).


(** Small volumes of shape (1, 2, 2) with the four classes of the script
    (background, left lung, right lung, infection). *)
Definition sample_truth : Np.ndarray Z :=
  Np.mk_ndarray [1%nat; 2%nat; 2%nat] [0; 1; 2; 2].
Definition sample_pred : Np.ndarray Z :=
  Np.mk_ndarray [1%nat; 2%nat; 2%nat] [0; 1; 1; 2].
Definition all_background : Np.ndarray Z :=
  Np.mk_ndarray [1%nat; 2%nat; 2%nat] [0; 0; 0; 0].
Definition all_left_lung : Np.ndarray Z :=
  Np.mk_ndarray [1%nat; 2%nat; 2%nat] [1; 1; 1; 1].

(** Element [k] of an array in C order, and element [c] of row [k] of an
    array whose last axis has length 3 (channel [c] of voxel [k]). *)
Definition voxel {A : Type} (a : Np.ndarray A) (k : nat) : option A :=
  nth_error (Np.data a) k.
Definition channel {A : Type} (a : Np.ndarray A) (k c : nat) : option A :=
  nth_error (Np.data a) (3 * k + c).

(** Intensity and label volumes of shape (1, 2, 2), the second intensity
    volume constant. *)
Definition sample_vol : Np.ndarray Q :=
  Np.mk_ndarray [1%nat; 2%nat; 2%nat] [0; 10; 5; 2]%Q.
Definition constant_vol : Np.ndarray Q :=
  Np.mk_ndarray [1%nat; 2%nat; 2%nat] [5; 5; 5; 5]%Q.
Definition sample_seg : Np.ndarray Z :=
  Np.mk_ndarray [1%nat; 2%nat; 2%nat] [0; 1; 3; 4].

(** [nearest z x]: the integer [z] is a nearest integer to the real [x]. *)
Definition nearest (z : Z) (x : Q) : Prop :=
  (Qabs (inject_Z z - x) <= 1 # 2)%Q.

(** The bytes, and a check of [blend] on one of them: the result is a
    byte and a nearest integer to 0.3·colour + 0.7·greyscale. *)
Definition bytes : list Z := map Z.of_nat (seq 0 256).

Definition blend_check (s b : Z) : bool :=
  match blend s (Some b) with
  | Some z =>
      (0 <=? z) && (z <=? 255)
      && Qle_bool (Qabs (inject_Z z
                         - ((3 # 10) * inject_Z s + (7 # 10) * inject_Z b)))
                  (1 # 2)
  | None => false
  end.

(** A volume whose greyscale takes the values 45, 85 and 165, at which
    0.7·greyscale lies half way between two integers, and labels for it. *)
Definition tie_vol : Np.ndarray Q :=
  Np.mk_ndarray [1%nat; 2%nat; 3%nat] [0; 45; 85; 165; 255; 100]%Q.
Definition tie_seg : Np.ndarray Z :=
  Np.mk_ndarray [1%nat; 2%nat; 3%nat] [0; 1; 4; 3; 2; 4].

(** A label volume on one row, for examples. *)
Definition vol1 (l : list Z) : Np.ndarray Z :=
  Np.mk_ndarray [1%nat; 1%nat; length l] l.
Definition ivol1 (l : list Q) : Np.ndarray Q :=
  Np.mk_ndarray [1%nat; 1%nat; length l] l.


(** * Properties *)

(** ** Python and numpy scalars *)

Lemma int64_small (z : Z) : - 2 ^ 63 <= z < 2 ^ 63 -> Np.int64 z = z.
Proof.
  intros H. unfold Np.int64. rewrite Z.mod_small; lia.
Qed.

Lemma for_in_append {A : Type} (g : Z -> A) (body : Z -> list A -> result (list A)) :
  (forall i s, body i s = Ok (s ++ [g i])) ->
  forall l acc, for_in l body acc = Ok (acc ++ map g l).
Proof.
  intros Hbody l. induction l as [|i l IH]; intros acc; simpl.
  - now rewrite app_nil_r.
  - rewrite Hbody. simpl. rewrite IH, <- app_assoc. reflexivity.
Qed.

Lemma range_length (n : Z) : length (range n) = Z.to_nat n.
Proof. unfold range. now rewrite length_map, length_seq. Qed.

Lemma range_nth (n i : Z) :
  0 <= i < n -> nth_error (range n) (Z.to_nat i) = Some i.
Proof.
  intros H. unfold range.
  rewrite nth_error_map, nth_error_seq.
  destruct (Nat.ltb_spec (Z.to_nat i) (Z.to_nat n)); [|lia].
  simpl. f_equal. lia.
Qed.

Lemma shape_eqb_refl (s : list nat) : Np.shape_eqb s s = true.
Proof. unfold Np.shape_eqb. destruct (list_eq_dec Nat.eq_dec s s); congruence. Qed.

Lemma shape_eqb_eq (s t : list nat) : Np.shape_eqb s t = true -> s = t.
Proof. unfold Np.shape_eqb. destruct (list_eq_dec Nat.eq_dec s t); congruence. Qed.

Lemma inject_Z_eq0 (z : Z) : Qeq_bool (inject_Z z) 0 = Z.eqb z 0.
Proof.
  destruct (Z.eqb_spec z 0) as [->|Hz]; [reflexivity|].
  destruct (Qeq_bool (inject_Z z) 0) eqn:E; [|reflexivity].
  apply Qeq_bool_iff in E. unfold Qeq in E. simpl in E. lia.
Qed.

Lemma true_divide_zero : Np.int64_truediv 0 0 = Np.NaN.
Proof. reflexivity. Qed.

Lemma true_divide_nonzero (a b : Z) :
  b <> 0 -> Np.int64_truediv a b = Np.Fin (Qred (inject_Z a / inject_Z b)).
Proof.
  intros Hb. unfold Np.int64_truediv, Np.true_divide.
  rewrite inject_Z_eq0. destruct (Z.eqb_spec b 0); [contradiction|reflexivity].
Qed.

Lemma true_divide_value (a b : Z) :
  b <> 0 -> is_value (Np.int64_truediv a b) (inject_Z a / inject_Z b).
Proof.
  intros Hb. rewrite true_divide_nonzero by assumption.
  eexists. split; [reflexivity|apply Qred_correct].
Qed.

Lemma true_divide_self (a : Z) : a <> 0 -> Np.int64_truediv a a = Np.Fin 1.
Proof.
  intros Ha. rewrite true_divide_nonzero by assumption.
  change (Np.Fin 1) with (Np.Fin (Qred 1)). apply f_equal.
  apply Qred_complete. field.
  intros H. apply Ha. unfold Qeq in H. simpl in H. lia.
Qed.

(** ** The loops of the score functions *)

Section Scores.

Variables truth pred : Np.ndarray Z.
Hypothesis same_shape : Np.shape truth = Np.shape pred.

Lemma calc_DSC_body_ok (i : Z) (s : list Np.float64) :
  calc_DSC_body truth pred i s = Ok (s ++ [dice_of truth pred i]).
Proof.
  unfold calc_DSC_body, Np.logical_and, Np.map2. simpl.
  rewrite same_shape, shape_eqb_refl. reflexivity.
Qed.

Lemma calc_Sensitivity_body_ok (i : Z) (s : list Np.float64) :
  calc_Sensitivity_body truth pred i s = Ok (s ++ [sens_of truth pred i]).
Proof.
  unfold calc_Sensitivity_body, Np.logical_and, Np.map2. simpl.
  rewrite same_shape, shape_eqb_refl. reflexivity.
Qed.

Lemma calc_Specificity_body_ok (i : Z) (s : list Np.float64) :
  calc_Specificity_body truth pred i s = Ok (s ++ [spec_of truth pred i]).
Proof.
  unfold calc_Specificity_body, Np.logical_and, Np.map2. simpl.
  rewrite same_shape, shape_eqb_refl. reflexivity.
Qed.

(** On volumes of one shape no turn of the loop raises, and the handler of
    ZeroDivisionError is never entered: the list returned holds the
    quotient numpy computed for every class. *)
Lemma calc_DSC_ok (classes : Z) :
  calc_DSC truth pred classes = Ok (map (dice_of truth pred) (range classes)).
Proof.
  unfold calc_DSC.
  now rewrite (for_in_append (dice_of truth pred)) by apply calc_DSC_body_ok.
Qed.

Lemma calc_Sensitivity_ok (classes : Z) :
  calc_Sensitivity truth pred classes
  = Ok (map (sens_of truth pred) (range classes)).
Proof.
  unfold calc_Sensitivity.
  now rewrite (for_in_append (sens_of truth pred))
    by apply calc_Sensitivity_body_ok.
Qed.

Lemma calc_Specificity_ok (classes : Z) :
  calc_Specificity truth pred classes
  = Ok (map (spec_of truth pred) (range classes)).
Proof.
  unfold calc_Specificity.
  now rewrite (for_in_append (spec_of truth pred))
    by apply calc_Specificity_body_ok.
Qed.

End Scores.

Lemma map_range_nth {A : Type} (g : Z -> A) (classes i : Z) :
  0 <= i < classes ->
  nth_error (map g (range classes)) (Z.to_nat i) = Some (g i).
Proof.
  intros H. now rewrite nth_error_map, range_nth.
Qed.

(** ** Counting *)

Lemma count_true_map (f : Z -> bool) (v : list Z) :
  Np.count_true (map f v) = card f v.
Proof.
  unfold Np.count_true, card.
  induction v as [|x v IH]; simpl; [reflexivity|].
  destruct (f x); simpl; congruence.
Qed.

Lemma count_true_zip (f : Z -> bool) (p t : list Z) :
  Np.count_true (Np.zip_with andb (map f p) (map f t)) = card2 f p t.
Proof.
  unfold Np.count_true, card2. revert t.
  induction p as [|x p IH]; intros [|y t]; simpl; try reflexivity.
  destruct (f x && f y); simpl; now rewrite IH.
Qed.

Lemma card_le_length (f : Z -> bool) (v : list Z) : (card f v <= length v)%nat.
Proof. apply filter_length_le. Qed.

Lemma card2_le_l (f : Z -> bool) (p t : list Z) : (card2 f p t <= card f p)%nat.
Proof.
  unfold card2, card. revert t.
  induction p as [|x p IH]; intros [|y t]; simpl; try lia.
  specialize (IH t). destruct (f x), (f y); simpl; lia.
Qed.

Lemma card2_le_r (f : Z -> bool) (p t : list Z) : (card2 f p t <= card f t)%nat.
Proof.
  unfold card2, card. revert t.
  induction p as [|x p IH]; intros [|y t]; simpl; try lia.
  specialize (IH t). destruct (f x), (f y); simpl; lia.
Qed.

Lemma card2_self (f : Z -> bool) (v : list Z) : card2 f v v = card f v.
Proof.
  unfold card2, card.
  induction v as [|x v IH]; simpl; [reflexivity|].
  destruct (f x); simpl; congruence.
Qed.

Lemma card_pos (f : Z -> bool) (v : list Z) (x : Z) :
  In x v -> f x = true -> (0 < card f v)%nat.
Proof.
  intros Hin Hf. unfold card.
  assert (In x (filter f v)) as H by (apply filter_In; auto).
  destruct (filter f v); [contradiction|simpl; lia].
Qed.

(** ** The quotients in terms of voxel counts *)

Section Quotients.

Variables truth pred : Np.ndarray Z.
Hypothesis same_length : length (Np.data pred) = length (Np.data truth).
Hypothesis fits : fits_int64 truth.

Let t := Np.data truth.
Let p := Np.data pred.

Lemma int64_count (n : nat) :
  (n <= length t)%nat -> Np.int64 (Z.of_nat n) = Z.of_nat n.
Proof.
  intros H. unfold fits_int64 in fits. fold t in fits.
  apply int64_small. lia.
Qed.

Lemma dice_of_counts (i : Z) :
  dice_of truth pred i
  = Np.int64_truediv
      (2 * Z.of_nat (card2 (is_class i) p t))
      (Z.of_nat (card (is_class i) p) + Z.of_nat (card (is_class i) t)).
Proof.
  unfold dice_of, Np.sum, Np.equal, Np.map1. cbn [Np.data Np.shape].
  change (fun x : Z => x =? i) with (is_class i).
  rewrite count_true_zip, !count_true_map. fold p t.
  pose proof (card2_le_r (is_class i) p t).
  pose proof (card_le_length (is_class i) p).
  pose proof (card_le_length (is_class i) t).
  pose proof same_length as Hlen. fold p t in Hlen.
  unfold fits_int64 in fits. fold t in fits.
  unfold Np.int64_mul, Np.int64_add.
  rewrite !int64_count by lia.
  rewrite !int64_small by lia. reflexivity.
Qed.

Lemma sens_of_counts (i : Z) :
  sens_of truth pred i
  = Np.int64_truediv
      (Z.of_nat (card2 (is_class i) p t))
      (Z.of_nat (card (is_class i) t)).
Proof.
  unfold sens_of, Np.sum, Np.equal, Np.map1. cbn [Np.data Np.shape].
  change (fun x : Z => x =? i) with (is_class i).
  rewrite count_true_zip, !count_true_map. fold p t.
  pose proof (card2_le_r (is_class i) p t).
  pose proof (card_le_length (is_class i) t).
  rewrite !int64_count by lia. reflexivity.
Qed.

Lemma spec_of_counts (i : Z) :
  spec_of truth pred i
  = Np.int64_truediv
      (Z.of_nat (card2 (not_class i) p t))
      (Z.of_nat (card (not_class i) t)).
Proof.
  unfold spec_of, Np.sum, Np.logical_not, Np.equal, Np.map1.
  cbn [Np.data Np.shape]. rewrite !map_map.
  change (fun x : Z => negb (x =? i)) with (not_class i).
  rewrite count_true_zip, !count_true_map. fold p t.
  pose proof (card2_le_r (not_class i) p t).
  pose proof (card_le_length (not_class i) t).
  rewrite !int64_count by lia. reflexivity.
Qed.

End Quotients.

Lemma wf_same_length {A B : Type} (a : Np.ndarray A) (b : Np.ndarray B) :
  Np.wf a -> Np.wf b -> Np.shape a = Np.shape b ->
  length (Np.data b) = length (Np.data a).
Proof. unfold Np.wf. congruence. Qed.

(** A quotient of two counts, the first at most the second: nan when the
    divisor is zero (the dividend is zero too), and otherwise the exact
    quotient, which lies between 0 and 1. *)
Lemma quotient_nan (a b : Z) :
  0 <= a <= b -> b = 0 -> Np.int64_truediv a b = Np.NaN.
Proof.
  intros Hab Hb. assert (a = 0) as -> by lia. subst b. reflexivity.
Qed.

Lemma quotient_unit (a b : Z) :
  0 <= a <= b -> b <> 0 -> in_unit_interval (Np.int64_truediv a b).
Proof.
  intros Hab Hb. rewrite true_divide_nonzero by assumption.
  eexists. split; [reflexivity|]. rewrite Qred_correct.
  assert (0 < inject_Z b)%Q as Hpos.
  { unfold Qlt. simpl. lia. }
  split.
  - apply Qle_shift_div_l; [assumption|].
    rewrite Qmult_0_l. unfold Qle. simpl. lia.
  - apply Qle_shift_div_r; [assumption|].
    rewrite Qmult_1_l. unfold Qle. simpl. lia.
Qed.

Lemma quotient_zero (b : Z) : b <> 0 -> Np.int64_truediv 0 b = Np.Fin 0.
Proof.
  intros Hb. rewrite true_divide_nonzero by assumption.
  change (Np.Fin 0) with (Np.Fin (Qred 0)). apply f_equal.
  apply Qred_complete. unfold Qdiv. apply Qmult_0_l.
Qed.

(** ** What the score functions return *)

Section ScoreValues.

Variables truth pred : Np.ndarray Z.
Hypothesis wf_truth : Np.wf truth.
Hypothesis wf_pred : Np.wf pred.
Hypothesis same_shape : Np.shape truth = Np.shape pred.
Hypothesis fits : fits_int64 truth.

Variables classes i : Z.
Hypothesis class_index : 0 <= i < classes.

Let t := Np.data truth.
Let p := Np.data pred.

Lemma calc_DSC_at :
  score_at (calc_DSC truth pred classes) i
    (Np.int64_truediv
       (2 * Z.of_nat (card2 (is_class i) p t))
       (Z.of_nat (card (is_class i) p) + Z.of_nat (card (is_class i) t))).
Proof.
  eexists. split; [apply calc_DSC_ok, same_shape|].
  rewrite map_range_nth by assumption. apply f_equal.
  apply dice_of_counts; [|assumption].
  now apply wf_same_length.
Qed.

Lemma calc_Sensitivity_at :
  score_at (calc_Sensitivity truth pred classes) i
    (Np.int64_truediv
       (Z.of_nat (card2 (is_class i) p t)) (Z.of_nat (card (is_class i) t))).
Proof.
  eexists. split; [apply calc_Sensitivity_ok, same_shape|].
  rewrite map_range_nth by assumption. apply f_equal.
  apply sens_of_counts; [|assumption].
  now apply wf_same_length.
Qed.

Lemma calc_Specificity_at :
  score_at (calc_Specificity truth pred classes) i
    (Np.int64_truediv
       (Z.of_nat (card2 (not_class i) p t)) (Z.of_nat (card (not_class i) t))).
Proof.
  eexists. split; [apply calc_Specificity_ok, same_shape|].
  rewrite map_range_nth by assumption. apply f_equal.
  apply spec_of_counts; [|assumption].
  now apply wf_same_length.
Qed.

(** Dice where class [i] occurs in one of the volumes: the quotient
    2|pred_i ∩ truth_i| / (|pred_i| + |truth_i|). *)
Lemma calc_DSC_value :
  (card (is_class i) p + card (is_class i) t <> 0)%nat ->
  exists x, score_at (calc_DSC truth pred classes) i x /\
    is_value x (2 * inject_Z (Z.of_nat (card2 (is_class i) p t))
                / (inject_Z (Z.of_nat (card (is_class i) p))
                   + inject_Z (Z.of_nat (card (is_class i) t))))%Q.
Proof.
  intros Hden. eexists. split; [apply calc_DSC_at|].
  destruct (true_divide_value
              (2 * Z.of_nat (card2 (is_class i) p t))
              (Z.of_nat (card (is_class i) p) + Z.of_nat (card (is_class i) t)))
    as [r [Hr Hq]]; [lia|].
  exists r. split; [exact Hr|]. rewrite Hq.
  rewrite inject_Z_mult, inject_Z_plus. reflexivity.
Qed.

(** Dice where class [i] occurs in neither volume: numpy's 0/0. *)
Lemma calc_DSC_nan :
  (card (is_class i) p + card (is_class i) t = 0)%nat ->
  score_at (calc_DSC truth pred classes) i Np.NaN.
Proof.
  intros Hden. pose proof calc_DSC_at as H.
  pose proof (card2_le_r (is_class i) p t).
  rewrite quotient_nan in H by lia. exact H.
Qed.

Lemma calc_Sensitivity_value :
  card (is_class i) t <> 0%nat ->
  exists x, score_at (calc_Sensitivity truth pred classes) i x /\
    is_value x (inject_Z (Z.of_nat (card2 (is_class i) p t))
                / inject_Z (Z.of_nat (card (is_class i) t)))%Q.
Proof.
  intros Hden. eexists. split; [apply calc_Sensitivity_at|].
  apply true_divide_value. lia.
Qed.

Lemma calc_Sensitivity_nan :
  card (is_class i) t = 0%nat ->
  score_at (calc_Sensitivity truth pred classes) i Np.NaN.
Proof.
  intros Hden. pose proof calc_Sensitivity_at as H.
  pose proof (card2_le_r (is_class i) p t).
  rewrite quotient_nan in H by lia. exact H.
Qed.

Lemma calc_Specificity_value :
  card (not_class i) t <> 0%nat ->
  exists x, score_at (calc_Specificity truth pred classes) i x /\
    is_value x (inject_Z (Z.of_nat (card2 (not_class i) p t))
                / inject_Z (Z.of_nat (card (not_class i) t)))%Q.
Proof.
  intros Hden. eexists. split; [apply calc_Specificity_at|].
  apply true_divide_value. lia.
Qed.

Lemma calc_Specificity_nan :
  card (not_class i) t = 0%nat ->
  score_at (calc_Specificity truth pred classes) i Np.NaN.
Proof.
  intros Hden. pose proof calc_Specificity_at as H.
  pose proof (card2_le_r (not_class i) p t).
  rewrite quotient_nan in H by lia. exact H.
Qed.

(** Every score is nan or a real number of [0, 1]. *)
Lemma calc_DSC_range (x : Np.float64) :
  score_at (calc_DSC truth pred classes) i x ->
  x = Np.NaN \/ in_unit_interval x.
Proof.
  intros [l [Hl Hx]]. destruct calc_DSC_at as [l' [Hl' Hx']].
  assert (l' = l) as -> by congruence.
  assert (Some x = Some (Np.int64_truediv
       (2 * Z.of_nat (card2 (is_class i) p t))
       (Z.of_nat (card (is_class i) p) + Z.of_nat (card (is_class i) t))))
    as Hsome by congruence.
  apply (f_equal (fun o => match o with Some y => y | None => x end)) in Hsome.
  rewrite Hsome.
  pose proof (card2_le_r (is_class i) p t).
  pose proof (card2_le_l (is_class i) p t).
  destruct (Z.eq_dec
    (Z.of_nat (card (is_class i) p) + Z.of_nat (card (is_class i) t)) 0).
  - left. apply quotient_nan; lia.
  - right. apply quotient_unit; lia.
Qed.

Lemma calc_Sensitivity_range (x : Np.float64) :
  score_at (calc_Sensitivity truth pred classes) i x ->
  x = Np.NaN \/ in_unit_interval x.
Proof.
  intros [l [Hl Hx]]. destruct calc_Sensitivity_at as [l' [Hl' Hx']].
  assert (l' = l) as -> by congruence.
  assert (x = Np.int64_truediv
       (Z.of_nat (card2 (is_class i) p t)) (Z.of_nat (card (is_class i) t)))
    as -> by congruence.
  pose proof (card2_le_r (is_class i) p t).
  destruct (Z.eq_dec (Z.of_nat (card (is_class i) t)) 0).
  - left. apply quotient_nan; lia.
  - right. apply quotient_unit; lia.
Qed.

Lemma calc_Specificity_range (x : Np.float64) :
  score_at (calc_Specificity truth pred classes) i x ->
  x = Np.NaN \/ in_unit_interval x.
Proof.
  intros [l [Hl Hx]]. destruct calc_Specificity_at as [l' [Hl' Hx']].
  assert (l' = l) as -> by congruence.
  assert (x = Np.int64_truediv
       (Z.of_nat (card2 (not_class i) p t)) (Z.of_nat (card (not_class i) t)))
    as -> by congruence.
  pose proof (card2_le_r (not_class i) p t).
  destruct (Z.eq_dec (Z.of_nat (card (not_class i) t)) 0).
  - left. apply quotient_nan; lia.
  - right. apply quotient_unit; lia.
Qed.

End ScoreValues.

(** The lists returned have one element per class. *)
Lemma scores_length (truth pred : Np.ndarray Z) (classes : Z) :
  Np.shape truth = Np.shape pred ->
  exists d s sp,
    calc_DSC truth pred classes = Ok d /\
    calc_Sensitivity truth pred classes = Ok s /\
    calc_Specificity truth pred classes = Ok sp /\
    length d = Z.to_nat classes /\
    length s = Z.to_nat classes /\
    length sp = Z.to_nat classes.
Proof.
  intros Hs. do 3 eexists.
  split; [now apply calc_DSC_ok|].
  split; [now apply calc_Sensitivity_ok|].
  split; [now apply calc_Specificity_ok|].
  now rewrite !length_map, !range_length.
Qed.

(** ** Identical and disjoint volumes *)

Lemma card2_disjoint (i : Z) (p t : list Z) :
  (forall x, In x p -> In x t -> False) -> card2 (is_class i) p t = 0%nat.
Proof.
  intros Hdis. unfold card2.
  destruct (filter _ (combine p t)) as [|[x y] l] eqn:E; [reflexivity|].
  exfalso.
  assert (In (x, y) (filter (fun xy => is_class i (fst xy) && is_class i (snd xy))
                            (combine p t))) as Hin
    by (rewrite E; now left).
  apply filter_In in Hin. destruct Hin as [Hin Hb]. simpl in Hb.
  apply andb_prop in Hb. destruct Hb as [Hx Hy].
  unfold is_class in Hx, Hy. apply Z.eqb_eq in Hx, Hy. subst.
  apply (Hdis i); [eapply in_combine_l|eapply in_combine_r]; eassumption.
Qed.

(** When no label occurs in both volumes, Dice is 0.0 for a class that one
    of them uses and nan for a class that neither uses. *)
Lemma calc_DSC_disjoint (truth pred : Np.ndarray Z) (classes i : Z) :
  Np.wf truth -> Np.wf pred -> Np.shape truth = Np.shape pred ->
  fits_int64 truth -> 0 <= i < classes ->
  (forall x, In x (Np.data pred) -> In x (Np.data truth) -> False) ->
  score_at (calc_DSC truth pred classes) i
    (if (card (is_class i) (Np.data pred)
         + card (is_class i) (Np.data truth) =? 0)%nat
     then Np.NaN else Np.Fin 0).
Proof.
  intros Hwt Hwp Hs Hf Hi Hdis.
  pose proof (calc_DSC_at truth pred Hwt Hwp Hs Hf classes i Hi) as H.
  rewrite (card2_disjoint i _ _ Hdis) in H.
  destruct (Nat.eqb_spec (card (is_class i) (Np.data pred)
                          + card (is_class i) (Np.data truth)) 0).
  - rewrite quotient_nan in H by lia. exact H.
  - change (2 * Z.of_nat 0) with 0 in H.
    rewrite quotient_zero in H by lia. exact H.
Qed.

(** ** Arrays with a last axis of length 3 *)

Lemma interleave3_same {A : Type} (l : list A) :
  Np.interleave3 l l l = flat_map (fun x => [x; x; x]) l.
Proof. induction l as [|x l IH]; simpl; congruence. Qed.

Lemma repeat_rows {A : Type} (l : list A) :
  repeat 0 (length l * 3) = flat_map (fun _ => [0; 0; 0]) l.
Proof. induction l as [|x l IH]; simpl; congruence. Qed.

Lemma assign_rows_flat_map {A B : Type} (w : nat) (m : A -> bool)
      (f : A -> list B) (v : list B) (l : list A) :
  (forall x, length (f x) = w) ->
  Np.assign_rows w (map m l) v (flat_map f l)
  = flat_map (fun x => if m x then v else f x) l.
Proof.
  intros Hw. induction l as [|x l IH]; simpl; [reflexivity|].
  rewrite firstn_app, skipn_app, Hw, Nat.sub_diag. simpl.
  rewrite <- (Hw x) at 1 3. rewrite firstn_all, skipn_all, app_nil_r. simpl.
  now rewrite IH.
Qed.

Lemma nth_error_rows {A B : Type} (f : A -> list B) (l : list A)
      (k c : nat) (x : A) :
  (forall y, length (f y) = 3%nat) ->
  nth_error l k = Some x -> (c < 3)%nat ->
  nth_error (flat_map f l) (3 * k + c) = nth_error (f x) c.
Proof.
  intros Hw. revert k. induction l as [|y l IH]; intros k Hk Hc.
  - destruct k; discriminate.
  - destruct k as [|k]; simpl in Hk.
    + injection Hk as ->. simpl flat_map. rewrite Nat.mul_0_r. simpl.
      apply nth_error_app1. rewrite Hw. exact Hc.
    + simpl flat_map. rewrite nth_error_app2 by (rewrite Hw; lia).
      rewrite Hw. replace (3 * S k + c - 3)%nat with (3 * k + c)%nat by lia.
      now apply IH.
Qed.

Lemma length_rows {A B : Type} (f : A -> list B) (l : list A) :
  (forall y, length (f y) = 3%nat) ->
  length (flat_map f l) = (length l * 3)%nat.
Proof.
  intros Hw. induction l as [|y l IH]; simpl; [reflexivity|].
  rewrite length_app, Hw, IH. lia.
Qed.

Lemma colour_of_length (l : Z) : length (colour_of l) = 3%nat.
Proof.
  unfold colour_of.
  destruct ((l =? 1) || (l =? 2)); [reflexivity|].
  destruct (l =? 3); reflexivity.
Qed.

Lemma pixel_length (l : Z) (g : Np.uint8) : length (pixel l g) = 3%nat.
Proof. unfold pixel. now rewrite length_map, colour_of_length. Qed.

(** [seg_rgb] after the three assignments: the colour of every label, row
    by row. *)
Lemma seg_rgb_of_ok (seg : Np.ndarray Z) (s0 s1 s2 : nat) :
  Np.wf seg -> Np.shape seg = [s0; s1; s2] ->
  seg_rgb_of seg
  = Ok (Np.mk_ndarray [s0; s1; s2; 3%nat] (flat_map colour_of (Np.data seg))).
Proof.
  intros Hwf Hs. unfold seg_rgb_of. rewrite Hs.
  cbn [Np.tuple_get nth_error bind].
  unfold Np.setitem_mask, Np.zeros, Np.equal, Np.map1.
  cbn [Np.shape Np.data bind]. rewrite Hs.
  change ([s0; s1; s2] ++ [length blue]) with [s0; s1; s2; 3%nat].
  change ([s0; s1; s2] ++ [length red]) with [s0; s1; s2; 3%nat].
  rewrite shape_eqb_refl. cbn [bind Np.shape Np.data].
  rewrite shape_eqb_refl. cbn [bind Np.shape Np.data].
  rewrite shape_eqb_refl. apply f_equal. apply f_equal.
  replace (Np.size_of [s0; s1; s2; 3%nat]) with (length (Np.data seg) * 3)%nat.
  2:{ unfold Np.wf in Hwf. rewrite Hwf, Hs. unfold Np.size_of. simpl. lia. }
  rewrite repeat_rows.
  change (length blue) with 3%nat. change (length red) with 3%nat.
  rewrite assign_rows_flat_map by reflexivity.
  rewrite assign_rows_flat_map by (intros x; destruct (x =? 1); reflexivity).
  rewrite assign_rows_flat_map
    by (intros x; destruct (x =? 2); [|destruct (x =? 1)]; reflexivity).
  apply flat_map_ext. intros l. unfold colour_of.
  destruct (Z.eqb_spec l 3), (Z.eqb_spec l 2), (Z.eqb_spec l 1);
    try reflexivity; lia.
Qed.

(** ** The compositor, voxel by voxel *)

Lemma vol_greyscale_ok (vol : Np.ndarray Q) (lo hi : Q) :
  Np.amin vol = Ok lo -> Np.amax vol = Ok hi ->
  vol_greyscale vol
  = Ok (Np.mk_ndarray (Np.shape vol) (map (grey_of lo hi) (Np.data vol))).
Proof.
  intros Hlo Hhi. unfold vol_greyscale, vol_scaled. rewrite Hlo, Hhi.
  cbn [bind]. unfold Np.map1. cbn [Np.shape Np.data].
  rewrite !map_map. reflexivity.
Qed.

Lemma min_max_exist (vol : Np.ndarray Q) :
  Np.data vol <> [] -> exists lo hi, Np.amin vol = Ok lo /\ Np.amax vol = Ok hi.
Proof.
  intros Hne. unfold Np.amin, Np.amax.
  destruct (Np.data vol) as [|x l]; [contradiction|]. eauto.
Qed.

Lemma overlay_rows (labels : list Z) (greys : list Np.uint8) :
  Np.select
    (Np.interleave3 (map (fun x => 0 <? x) labels)
                    (map (fun x => 0 <? x) labels)
                    (map (fun x => 0 <? x) labels))
    (map Np.uastype_uint8
       (map Np.uround
          (Np.zip_with Np.uadd
             (map (fun s => Np.fmul alpha (Np.of_int s))
                  (flat_map colour_of labels))
             (map (Np.umul (Np.fsub (Np.of_int 1) alpha))
                  (Np.interleave3 greys greys greys)))))
    (map (fun b => b) (map (fun b => b) (Np.interleave3 greys greys greys)))
  = flat_map (fun lg => pixel (fst lg) (snd lg)) (combine labels greys).
Proof.
  revert greys. induction labels as [|l labels IH]; intros [|g greys];
    try reflexivity.
  - pose proof (colour_of_length l) as Hlen. simpl.
    destruct (colour_of l) as [|r [|gr [|b [|? ?]]]]; try discriminate Hlen.
    reflexivity.
  - specialize (IH greys).
    cbn [combine flat_map fst snd]. rewrite <- IH. clear IH.
    unfold pixel, blend.
    pose proof (colour_of_length l) as Hlen.
    destruct (colour_of l) as [|r [|gr [|b [|? ?]]]]; try discriminate Hlen.
    cbn [map Np.interleave3 app Np.zip_with Np.select].
    destruct (0 <? l); reflexivity.
Qed.

Section Overlay.

Variable vol : Np.ndarray Q.
Variable seg : Np.ndarray Z.
Variables s0 s1 s2 : nat.
Hypothesis wf_seg : Np.wf seg.
Hypothesis shape_seg : Np.shape seg = [s0; s1; s2].
Hypothesis same_shape : Np.shape vol = Np.shape seg.

Variables lo hi : Q.
Hypothesis vol_min : Np.amin vol = Ok lo.
Hypothesis vol_max : Np.amax vol = Ok hi.

Lemma overlay_segmentation_ok :
  overlay_segmentation vol seg
  = Ok (Np.mk_ndarray
          (Np.shape seg ++ [3%nat])
          (flat_map (fun lg => pixel (fst lg) (snd lg))
             (combine (Np.data seg) (map (grey_of lo hi) (Np.data vol))))).
Proof.
  unfold overlay_segmentation.
  rewrite (vol_greyscale_ok vol lo hi vol_min vol_max). cbn [bind].
  unfold Np.stack3. cbn [Np.shape Np.data].
  rewrite !shape_eqb_refl. cbn [andb bind].
  rewrite (seg_rgb_of_ok seg s0 s1 s2 wf_seg shape_seg). cbn [bind].
  unfold Np.greater, Np.map1, Np.map2, Np.where_, Np.astype_same,
    Np.round_uint8, Np.map1.
  cbn [Np.shape Np.data]. rewrite same_shape, shape_seg.
  change ([s0; s1; s2] ++ [3%nat]) with [s0; s1; s2; 3%nat].
  rewrite !shape_eqb_refl. cbn [andb bind Np.shape Np.data].
  rewrite !shape_eqb_refl. cbn [andb].
  apply f_equal. apply f_equal. apply overlay_rows.
Qed.

End Overlay.

(** ** Rounding and conversion to [uint8] *)

Lemma rint_bounds (q : Q) :
  (q - (1 # 2) <= inject_Z (Np.rint q) <= q + (1 # 2))%Q.
Proof.
  unfold Np.rint.
  pose proof (Qfloor_le q) as Hlo. pose proof (Qlt_floor q) as Hhi.
  rewrite inject_Z_plus in Hhi. change (inject_Z 1) with 1%Q in Hhi.
  destruct (Qcompare_spec (q - inject_Z (Qfloor q)) (1 # 2)) as [He|Hl|Hg].
  - destruct (Z.even (Qfloor q));
      [|rewrite inject_Z_plus; change (inject_Z 1) with 1%Q]; lra.
  - lra.
  - rewrite inject_Z_plus. change (inject_Z 1) with 1%Q. lra.
Qed.


Lemma rint_byte (q : Q) : (0 <= q <= 255)%Q -> 0 <= Np.rint q <= 255.
Proof.
  intros [H0 H1]. destruct (rint_bounds q) as [Hl Hu]. split.
  - assert (inject_Z (-1) < inject_Z (Np.rint q))%Q as H
        by (change (inject_Z (-1)) with (-1)%Q; lra).
    rewrite <- Zlt_Qlt in H. lia.
  - assert (inject_Z (Np.rint q) < inject_Z 256)%Q as H
        by (change (inject_Z 256) with 256%Q; lra).
    rewrite <- Zlt_Qlt in H. lia.
Qed.

Lemma trunc_int (z : Z) : Np.trunc (inject_Z z) = z.
Proof.
  unfold Np.trunc. destruct (Qle_bool 0 (inject_Z z));
    [apply Qfloor_Z|apply Qceiling_Z].
Qed.

Lemma cast_uint8_byte (z : Z) :
  0 <= z <= 255 -> Np.cast_uint8 (inject_Z z) = Some z.
Proof.
  intros H. unfold Np.cast_uint8. rewrite trunc_int.
  destruct (Z.leb_spec 0 z), (Z.leb_spec z 255); simpl; try lia. reflexivity.
Qed.



(** ** Global minimum and maximum *)

Lemma fold_min_le (l : list Q) (x : Q) :
  (fold_left Qmin l x <= x)%Q /\
  forall y, In y l -> (fold_left Qmin l x <= y)%Q.
Proof.
  revert x. induction l as [|a l IH]; intros x; simpl.
  - split; [apply Qle_refl|contradiction].
  - destruct (IH (Qmin x a)) as [H1 H2]. split.
    + eapply Qle_trans; [exact H1|apply Q.le_min_l].
    + intros y [<-|Hy]; [|now apply H2].
      eapply Qle_trans; [exact H1|apply Q.le_min_r].
Qed.

Lemma fold_max_ge (l : list Q) (x : Q) :
  (x <= fold_left Qmax l x)%Q /\
  forall y, In y l -> (y <= fold_left Qmax l x)%Q.
Proof.
  revert x. induction l as [|a l IH]; intros x; simpl.
  - split; [apply Qle_refl|contradiction].
  - destruct (IH (Qmax x a)) as [H1 H2]. split.
    + eapply Qle_trans; [apply Q.le_max_l|exact H1].
    + intros y [<-|Hy]; [|now apply H2].
      eapply Qle_trans; [apply Q.le_max_r|exact H1].
Qed.

Lemma min_max_bounds (vol : Np.ndarray Q) (lo hi v : Q) :
  Np.amin vol = Ok lo -> Np.amax vol = Ok hi -> In v (Np.data vol) ->
  (lo <= v <= hi)%Q.
Proof.
  unfold Np.amin, Np.amax. destruct (Np.data vol) as [|x l]; [discriminate|].
  intros Hlo Hhi Hin. injection Hlo as <-. injection Hhi as <-.
  destruct (fold_min_le l x) as [Hm1 Hm2].
  destruct (fold_max_ge l x) as [HM1 HM2].
  destruct Hin as [<-|Hin]; split; auto.
Qed.

Lemma rint_floor (q : Q) : Qfloor q <= Np.rint q <= Qfloor q + 1.
Proof.
  unfold Np.rint.
  destruct (q - inject_Z (Qfloor q) ?= 1 # 2)%Q; try lia.
  destruct (Z.even (Qfloor q)); lia.
Qed.

Lemma rint_mono (q r : Q) : (q <= r)%Q -> Np.rint q <= Np.rint r.
Proof.
  intros Hqr. pose proof (Qfloor_resp_le q r Hqr) as Hf.
  destruct (Z.eq_dec (Qfloor q) (Qfloor r)) as [E|E].
  - unfold Np.rint. rewrite <- E.
    destruct (Qcompare_spec (q - inject_Z (Qfloor q)) (1 # 2)) as [Hq|Hq|Hq];
      destruct (Qcompare_spec (r - inject_Z (Qfloor q)) (1 # 2)) as [Hr|Hr|Hr];
      try destruct (Z.even (Qfloor q)); try lia; exfalso; lra.
  - pose proof (rint_floor q). pose proof (rint_floor r). lia.
Qed.

(** ** Rounding to binary64 *)

Lemma rint_int (z : Z) : Np.rint (inject_Z z) = z.
Proof.
  unfold Np.rint. rewrite Qfloor_Z.
  assert (inject_Z z - inject_Z z == 0)%Q as H by ring.
  rewrite (Qcompare_comp _ _ H (1 # 2) (1 # 2) (Qeq_refl _)). reflexivity.
Qed.

Lemma pow2_pos (e : Z) : (0 < Np.pow2 e)%Q.
Proof. apply Qpower_0_lt. reflexivity. Qed.

Lemma pow2_plus (a b : Z) : (Np.pow2 (a + b) == Np.pow2 a * Np.pow2 b)%Q.
Proof. apply Qpower_plus. intros H. discriminate H. Qed.

Lemma pow2_le (a b : Z) : a <= b -> (Np.pow2 a <= Np.pow2 b)%Q.
Proof. intros H. apply Qpower_le_compat_l; [exact H|discriminate]. Qed.

Lemma pow2_lt_inv (a b : Z) : (Np.pow2 a < Np.pow2 b)%Q -> a < b.
Proof.
  intros H. apply (Qpower_lt_compat_l_inv 2 a b H). reflexivity.
Qed.

Lemma pow2_Z (n : Z) : 0 <= n -> (Np.pow2 n == inject_Z (2 ^ n))%Q.
Proof. intros H. unfold Np.pow2. now rewrite Zpower_Qpower. Qed.

Lemma pow2_ulp (e k : Z) :
  0 <= k -> (Np.pow2 e == inject_Z (2 ^ k) * Np.pow2 (e - k))%Q.
Proof.
  intros Hk. rewrite <- (pow2_Z k Hk), <- pow2_plus.
  replace (k + (e - k)) with e by lia. reflexivity.
Qed.

(** [ilog2] is the integer logarithm. *)
Lemma ilog2_spec (a : Q) :
  (0 < a)%Q ->
  (Np.pow2 (Np.ilog2 a) <= a)%Q /\ (a < Np.pow2 (Np.ilog2 a + 1))%Q.
Proof.
  intros Ha. destruct a as [n d].
  assert (0 < n) as Hn by (unfold Qlt in Ha; simpl in Ha; lia).
  unfold Np.ilog2. cbn [Qnum Qden].
  set (ln := Z.log2 n). set (ld := Z.log2 (Z.pos d)).
  destruct (Z.log2_spec n Hn) as [Hn1 Hn2]. fold ln in Hn1, Hn2.
  destruct (Z.log2_spec (Z.pos d) (Pos2Z.is_pos d)) as [Hd1 Hd2].
  fold ld in Hd1, Hd2.
  assert (0 <= ln) as Hln by apply Z.log2_nonneg.
  assert (0 <= ld) as Hld by apply Z.log2_nonneg.
  assert (Np.pow2 ln <= inject_Z n)%Q as Qn1
      by (rewrite pow2_Z by lia; rewrite <- Zle_Qle; exact Hn1).
  assert (inject_Z n < Np.pow2 (Z.succ ln))%Q as Qn2
      by (rewrite pow2_Z by lia; unfold Qlt, inject_Z; cbn [Qnum Qden]; rewrite !Z.mul_1_r; exact Hn2).
  assert (Np.pow2 ld <= inject_Z (Z.pos d))%Q as Qd1
      by (rewrite pow2_Z by lia; rewrite <- Zle_Qle; exact Hd1).
  assert (inject_Z (Z.pos d) < Np.pow2 (Z.succ ld))%Q as Qd2
      by (rewrite pow2_Z by lia; unfold Qlt, inject_Z; cbn [Qnum Qden]; rewrite !Z.mul_1_r; exact Hd2).
  clear Hn1 Hn2 Hd1 Hd2.
  assert (n # d == inject_Z n / inject_Z (Z.pos d))%Q as Hq
      by apply Qmake_Qdiv.
  assert (0 < inject_Z (Z.pos d))%Q as Hdpos by reflexivity.
  assert (0 < inject_Z n)%Q as Hnpos
      by (unfold Qlt; simpl; lia).
  set (D := inject_Z (Z.pos d)) in *. set (N := inject_Z n) in *.
  assert ((n # d) * D == N)%Q as Hmul by (rewrite Hq; field; lra).
  set (A := (n # d)%Q) in *.
  destruct (Qle_bool (Np.pow2 (ln - ld)) A) eqn:E.
  - apply Qle_bool_iff in E. split; [exact E|].
    (* A < 2^(ln - ld + 1) *)
    assert (Np.pow2 (ln - ld + 1) * Np.pow2 ld == Np.pow2 (Z.succ ln))%Q as Hp.
    { rewrite <- pow2_plus. replace (ln - ld + 1 + ld) with (Z.succ ln) by lia.
      reflexivity. }
    pose proof (pow2_pos (ln - ld + 1)) as Hpp.
    set (P := Np.pow2 (ln - ld + 1)) in *. set (L := Np.pow2 ld) in *.
    set (M := Np.pow2 (Z.succ ln)) in *.
    destruct (Qlt_le_dec A P) as [|Hge]; [assumption|]. exfalso.
    assert (P * D <= A * D)%Q by (apply Qmult_le_compat_r; lra).
    assert (P * L <= P * D)%Q by (rewrite !(Qmult_comm P);
                                   apply Qmult_le_compat_r; lra).
    lra.
  - assert (A < Np.pow2 (ln - ld))%Q as Hlt.
    { destruct (Qlt_le_dec A (Np.pow2 (ln - ld))) as [|Hge]; [assumption|].
      apply Qle_bool_iff in Hge. congruence. }
    split; [|replace (ln - ld - 1 + 1) with (ln - ld) by lia; exact Hlt].
    assert (Np.pow2 (ln - ld - 1) * Np.pow2 (Z.succ ld) == Np.pow2 ln)%Q as Hp.
    { rewrite <- pow2_plus. replace (ln - ld - 1 + Z.succ ld) with ln by lia.
      reflexivity. }
    pose proof (pow2_pos (ln - ld - 1)) as Hpp.
    set (P := Np.pow2 (ln - ld - 1)) in *. set (L := Np.pow2 (Z.succ ld)) in *.
    set (M := Np.pow2 ln) in *.
    destruct (Qlt_le_dec A P) as [Hlt'|]; [|assumption]. exfalso.
    assert (A * D <= P * D)%Q by (apply Qmult_le_compat_r; lra).
    assert (P * D < P * L)%Q by (apply Qmult_lt_l; assumption).
    lra.
Qed.

Lemma ilog2_mono (a b : Q) :
  (0 < a)%Q -> (a <= b)%Q -> Np.ilog2 a <= Np.ilog2 b.
Proof.
  intros Ha Hab.
  destruct (ilog2_spec a Ha) as [A1 _].
  destruct (ilog2_spec b) as [_ B2]; [lra|].
  assert (Np.pow2 (Np.ilog2 a) < Np.pow2 (Np.ilog2 b + 1))%Q as H by lra.
  apply pow2_lt_inv in H. lia.
Qed.

Lemma round_at_nonneg (e : Z) (a : Q) :
  (0 <= a)%Q -> (0 <= Np.round_at e a)%Q.
Proof.
  intros Ha. unfold Np.round_at.
  pose proof (pow2_pos (e - 52)) as Hu.
  apply Qmult_le_0_compat; [|lra].
  assert (0 <= a / Np.pow2 (e - 52))%Q as Hq
      by (apply Qle_shift_div_l; [exact Hu|lra]).
  apply rint_mono in Hq. change (Np.rint 0) with 0 in Hq.
  change 0%Q with (inject_Z 0). now rewrite <- Zle_Qle.
Qed.

Lemma round_at_same (e : Z) (a b : Q) :
  (a <= b)%Q -> (Np.round_at e a <= Np.round_at e b)%Q.
Proof.
  intros Hab. unfold Np.round_at.
  pose proof (pow2_pos (e - 52)) as Hu.
  apply Qmult_le_compat_r; [|lra].
  rewrite <- Zle_Qle. apply rint_mono.
  apply Qle_shift_div_l; [exact Hu|].
  assert (a / Np.pow2 (e - 52) * Np.pow2 (e - 52) == a)%Q as -> by (field; lra).
  exact Hab.
Qed.

(** A number below [2^(e+1)] rounds to at most [2^(e+1)], a number from
    [2^e] on to at least [2^e]. *)
Lemma round_at_upper (e : Z) (a : Q) :
  (a <= Np.pow2 (e + 1))%Q -> (Np.round_at e a <= Np.pow2 (e + 1))%Q.
Proof.
  intros Ha. unfold Np.round_at.
  pose proof (pow2_pos (e - 52)) as Hu.
  assert (Np.pow2 (e + 1) == inject_Z (2 ^ 53) * Np.pow2 (e - 52))%Q as Hp.
  { rewrite (pow2_ulp (e + 1) 53) by lia.
    replace (e + 1 - 53) with (e - 52) by lia. reflexivity. }
  rewrite Hp. apply Qmult_le_compat_r; [|lra].
  rewrite <- Zle_Qle. rewrite <- (rint_int (2 ^ 53)). apply rint_mono.
  apply Qle_shift_div_r; [exact Hu|]. rewrite <- Hp. exact Ha.
Qed.

Lemma round_at_lower (e : Z) (a : Q) :
  (Np.pow2 e <= a)%Q -> (Np.pow2 e <= Np.round_at e a)%Q.
Proof.
  intros Ha. unfold Np.round_at.
  pose proof (pow2_pos (e - 52)) as Hu.
  assert (Np.pow2 e == inject_Z (2 ^ 52) * Np.pow2 (e - 52))%Q as Hp
      by (apply pow2_ulp; lia).
  rewrite Hp at 1. apply Qmult_le_compat_r; [|lra].
  rewrite <- Zle_Qle. rewrite <- (rint_int (2 ^ 52)). apply rint_mono.
  apply Qle_shift_div_l; [exact Hu|]. rewrite <- Hp. exact Ha.
Qed.

Lemma round_at_mono (a b : Q) :
  (0 < a)%Q -> (a <= b)%Q ->
  (Np.round_at (Np.binade a) a <= Np.round_at (Np.binade b) b)%Q.
Proof.
  intros Ha Hab.
  pose proof (ilog2_mono a b Ha Hab) as Hlog.
  destruct (ilog2_spec a Ha) as [A1 A2].
  destruct (ilog2_spec b) as [B1 B2]; [lra|].
  unfold Np.binade.
  destruct (Z.eq_dec (Z.max (Np.ilog2 a) (-1022)) (Z.max (Np.ilog2 b) (-1022)))
    as [E|E].
  - rewrite E. now apply round_at_same.
  - assert (Z.max (Np.ilog2 a) (-1022) < Z.max (Np.ilog2 b) (-1022)) as Hlt
        by lia.
    assert (Z.max (Np.ilog2 b) (-1022) = Np.ilog2 b) as Eb by lia.
    rewrite Eb in *.
    set (ea := Z.max (Np.ilog2 a) (-1022)) in *.
    apply Qle_trans with (Np.pow2 (ea + 1)).
    + apply round_at_upper.
      apply Qle_trans with (Np.pow2 (Np.ilog2 a + 1)); [lra|].
      apply pow2_le. lia.
    + apply Qle_trans with (Np.pow2 (Np.ilog2 b)); [apply pow2_le; lia|].
      now apply round_at_lower.
Qed.

Lemma fl_comp (x y : Q) : (x == y)%Q -> Np.fl x = Np.fl y.
Proof. intros H. unfold Np.fl. now rewrite (Qred_complete x y H). Qed.

Lemma fl_zero (x : Q) : (x == 0)%Q -> Np.fl x = Np.Fin 0.
Proof. intros H. now rewrite (fl_comp x 0 H). Qed.

Lemma Qabs_positive (q : Q) : (0 < q)%Q -> Qabs q = q.
Proof.
  destruct q as [n d]. unfold Qlt. simpl. intros H.
  rewrite Z.abs_eq by lia. reflexivity.
Qed.

(** The rounding of a positive number. *)
Lemma fl_positive (x : Q) :
  (0 < x)%Q ->
  Np.fl x
  = if Qle_bool (Np.pow2 1024) (Np.round_at (Np.binade (Qred x)) (Qred x))
    then Np.PInf
    else Np.Fin (Qred (Np.round_at (Np.binade (Qred x)) (Qred x))).
Proof.
  intros Hx. unfold Np.fl. cbn zeta.
  assert (0 < Qred x)%Q as Hq by (rewrite Qred_correct; exact Hx).
  destruct (Qeq_bool (Qred x) 0) eqn:E.
  { apply Qeq_bool_iff in E. lra. }
  rewrite (Qabs_positive _ Hq).
  assert (Qle_bool 0 (Qred x) = true) as -> by (apply Qle_bool_iff; lra).
  reflexivity.
Qed.

(** Rounding is monotone on the non-negative numbers: below a number whose
    rounding is finite, roundings are finite and not larger. *)
Lemma fl_mono_fin (x y ry : Q) :
  (0 <= x)%Q -> (x <= y)%Q -> Np.fl y = Np.Fin ry ->
  exists rx, Np.fl x = Np.Fin rx /\ (0 <= rx)%Q /\ (rx <= ry)%Q.
Proof.
  intros Hx Hxy Hy.
  destruct (Qlt_le_dec 0 y) as [Hypos|Hy0].
  - rewrite (fl_positive y Hypos) in Hy.
    destruct (Qle_bool _ _) eqn:Ey in Hy; [discriminate|].
    assert (ry = Qred (Np.round_at (Np.binade (Qred y)) (Qred y))) as ->
        by congruence.
    assert (0 <= Np.round_at (Np.binade (Qred y)) (Qred y))%Q as Hry
        by (apply round_at_nonneg; rewrite Qred_correct; lra).
    destruct (Qlt_le_dec 0 x) as [Hxpos|Hx0].
    + rewrite (fl_positive x Hxpos).
      assert (Np.round_at (Np.binade (Qred x)) (Qred x)
              <= Np.round_at (Np.binade (Qred y)) (Qred y))%Q as Hr
          by (apply round_at_mono; rewrite !Qred_correct; assumption).
      assert (0 <= Np.round_at (Np.binade (Qred x)) (Qred x))%Q as Hrx
          by (apply round_at_nonneg; rewrite Qred_correct; lra).
      set (rx := Np.round_at (Np.binade (Qred x)) (Qred x)) in *.
      set (r := Np.round_at (Np.binade (Qred y)) (Qred y)) in *.
      destruct (Qle_bool _ rx) eqn:Ex.
      * apply Qle_bool_iff in Ex.
        assert (Qle_bool (Np.pow2 1024) r = true)
          by (apply Qle_bool_iff; lra).
        congruence.
      * eexists. split; [reflexivity|].
        rewrite (Qred_correct rx), (Qred_correct r). split; lra.
    + exists 0%Q. split; [apply fl_zero; lra|].
      set (r := Np.round_at (Np.binade (Qred y)) (Qred y)) in *.
      rewrite (Qred_correct r). split; lra.
  - rewrite (fl_zero y) in Hy by lra.
    assert (ry = 0%Q) as -> by congruence.
    exists 0%Q. split; [apply fl_zero; lra|]. split; lra.
Qed.

Lemma fsub_fin (a b : Q) : Np.fsub (Np.Fin a) (Np.Fin b) = Np.fl (a - b).
Proof.
  unfold Np.fsub, Np.fneg, Np.fadd. apply fl_comp.
  rewrite Qred_correct. reflexivity.
Qed.

Lemma fdiv_fin (a b : Q) :
  ~ (b == 0)%Q -> Np.fdiv (Np.Fin a) (Np.Fin b) = Np.fl (a / b).
Proof.
  intros Hb. unfold Np.fdiv.
  destruct (Qeq_bool b 0) eqn:E; [|reflexivity].
  apply Qeq_bool_iff in E. contradiction.
Qed.

Lemma of_int_255 : Np.of_int 255 = Np.Fin 255.
Proof. vm_compute. reflexivity. Qed.

Lemma fl_one : Np.fl 1 = Np.Fin 1.
Proof. vm_compute. reflexivity. Qed.

Lemma fl_255 : Np.fl 255 = Np.Fin 255.
Proof. vm_compute. reflexivity. Qed.

(** ** Greyscale *)

Lemma scaled_nan (lo hi v : Q) :
  ~ (lo < hi)%Q -> (lo <= v <= hi)%Q ->
  Np.fdiv (Np.fsub (Np.Fin v) (Np.Fin lo)) (Np.fsub (Np.Fin hi) (Np.Fin lo))
  = Np.NaN.
Proof.
  intros Hnlt [Hlo Hhi]. apply Qnot_lt_le in Hnlt.
  rewrite !fsub_fin, (fl_zero (v - lo)), (fl_zero (hi - lo)) by lra.
  reflexivity.
Qed.

Lemma grey_of_undetermined (lo hi v : Q) :
  ~ (lo < hi)%Q -> (lo <= v <= hi)%Q -> grey_of lo hi v = None.
Proof.
  intros Hnlt Hv. unfold grey_of. now rewrite scaled_nan.
Qed.

Lemma grey_of_range (lo hi v : Q) (b : Z) :
  grey_of lo hi v = Some b -> 0 <= b <= 255.
Proof.
  unfold grey_of.
  destruct (Np.around _) as [q| | |]; cbn [Np.astype_uint8]; try discriminate.
  unfold Np.cast_uint8.
  destruct (Z.leb_spec 0 (Np.trunc q)), (Z.leb_spec (Np.trunc q) 255);
    simpl; try discriminate.
  intros Hb. injection Hb as <-. lia.
Qed.

(** Where the difference of maximum and minimum is a positive finite float,
    the greyscale of every intensity between them is a byte, and the
    greyscale grows with the intensity. *)
Lemma grey_of_order (lo hi v w d : Q) :
  Np.fsub (Np.Fin hi) (Np.Fin lo) = Np.Fin d -> (0 < d)%Q ->
  (lo <= v)%Q -> (v <= w)%Q -> (w <= hi)%Q ->
  exists a b,
    grey_of lo hi v = Some a /\ grey_of lo hi w = Some b /\
    0 <= a /\ a <= b /\ b <= 255.
Proof.
  intros Hd Hdpos Hlv Hvw Hwh. unfold grey_of.
  rewrite Hd, !fsub_fin. rewrite fsub_fin in Hd.
  destruct (fl_mono_fin (w - lo) (hi - lo) d) as [aw [Ew [Hw0 Hwd]]];
    [lra|lra|exact Hd|].
  destruct (fl_mono_fin (v - lo) (w - lo) aw) as [av [Ev [Hv0 Hvw']]];
    [lra|lra|exact Ew|].
  rewrite Ev, Ew, !fdiv_fin by lra.
  assert (aw / d <= 1)%Q as Hq1
      by (apply Qle_shift_div_r; [exact Hdpos|lra]).
  assert (0 <= av / d)%Q as Hq0
      by (apply Qle_shift_div_l; [exact Hdpos|lra]).
  assert (av / d <= aw / d)%Q as Hqq.
  { apply Qle_shift_div_l; [exact Hdpos|].
    assert (av / d * d == av)%Q as -> by (field; lra). exact Hvw'. }
  destruct (fl_mono_fin (aw / d) 1 1) as [qw [Eqw [Hqw0 Hqw1]]];
    [lra|exact Hq1|exact fl_one|].
  destruct (fl_mono_fin (av / d) (aw / d) qw) as [qv [Eqv [Hqv0 Hqvw]]];
    [exact Hq0|exact Hqq|exact Eqw|].
  rewrite Eqv, Eqw, of_int_255. cbn [Np.fmul].
  destruct (fl_mono_fin (qw * 255) 255 255) as [pw [Epw [Hpw0 Hpw1]]];
    [lra|lra|exact fl_255|].
  destruct (fl_mono_fin (qv * 255) (qw * 255) pw) as [pv [Epv [Hpv0 Hpvw]]];
    [lra|lra|exact Epw|].
  rewrite Epv, Epw. cbn [Np.around Np.astype_uint8].
  assert (0 <= Np.rint pv <= 255) as Rv by (apply rint_byte; split; lra).
  assert (0 <= Np.rint pw <= 255) as Rw by (apply rint_byte; split; lra).
  exists (Np.rint pv), (Np.rint pw).
  split; [now apply cast_uint8_byte|].
  split; [now apply cast_uint8_byte|].
  split; [lia|]. split; [now apply rint_mono|lia].
Qed.

Lemma grey_of_determined (lo hi v d : Q) :
  Np.fsub (Np.Fin hi) (Np.Fin lo) = Np.Fin d -> (0 < d)%Q ->
  (lo <= v <= hi)%Q ->
  exists b, grey_of lo hi v = Some b /\ 0 <= b <= 255.
Proof.
  intros Hd Hdpos [Hlo Hhi].
  destruct (grey_of_order lo hi v v d Hd Hdpos Hlo (Qle_refl v) Hhi)
    as [a [b [Ea [_ [H0 [_ H1]]]]]].
  exists a. split; [exact Ea|]. apply (grey_of_range lo hi v). exact Ea.
Qed.

Lemma grey_of_min (lo hi v d : Q) :
  Np.fsub (Np.Fin hi) (Np.Fin lo) = Np.Fin d -> (0 < d)%Q ->
  (v == lo)%Q -> grey_of lo hi v = Some 0.
Proof.
  intros Hd Hdpos Hv. unfold grey_of.
  rewrite Hd, fsub_fin, (fl_zero (v - lo)) by lra.
  rewrite fdiv_fin by lra. rewrite (fl_zero (0 / d)) by (unfold Qdiv; ring).
  rewrite of_int_255. reflexivity.
Qed.

Lemma grey_of_max (lo hi v d : Q) :
  Np.fsub (Np.Fin hi) (Np.Fin lo) = Np.Fin d -> (0 < d)%Q ->
  (v == hi)%Q -> grey_of lo hi v = Some 255.
Proof.
  intros Hd Hdpos Hv. unfold grey_of.
  rewrite Hd. rewrite fsub_fin in *.
  rewrite (fl_comp (v - lo) (hi - lo)) by lra. rewrite Hd.
  rewrite fdiv_fin by lra. rewrite (fl_comp (d / d) 1) by (field; lra).
  rewrite fl_one, of_int_255. vm_compute. reflexivity.
Qed.

(** ** The blend *)

Lemma blend_checked :
  forallb (fun b => blend_check 0 b && blend_check 255 b) bytes = true.
Proof. vm_compute. reflexivity. Qed.

(** On every byte the blend of a colour component 0 or 255 is a byte, and
    a nearest integer to 0.3·colour + 0.7·greyscale. *)
Lemma blend_nearest (s b : Z) :
  s = 0 \/ s = 255 -> 0 <= b <= 255 ->
  exists z,
    blend s (Some b) = Some z /\ 0 <= z <= 255 /\
    nearest z ((3 # 10) * inject_Z s + (7 # 10) * inject_Z b).
Proof.
  intros Hs Hb.
  assert (In b bytes) as Hin.
  { unfold bytes. apply in_map_iff. exists (Z.to_nat b).
    split; [lia|]. apply in_seq. lia. }
  pose proof (proj1 (forallb_forall _ _) blend_checked b Hin) as Hc.
  cbv beta in Hc.
  destruct (blend_check 0 b) eqn:H0; [|discriminate Hc].
  destruct (blend_check 255 b) eqn:H255; [|discriminate Hc]. clear Hc.
  assert (blend_check s b = true) as Hc
      by (destruct Hs as [-> | ->]; assumption).
  clear H0 H255. unfold blend_check in Hc.
  destruct (blend s (Some b)) as [z|]; [|discriminate Hc].
  destruct (Z.leb_spec 0 z) as [Hz0|]; [|discriminate Hc].
  destruct (Z.leb_spec z 255) as [Hz1|]; [|discriminate Hc].
  exists z. split; [reflexivity|]. split; [lia|].
  unfold nearest. apply Qle_bool_iff. exact Hc.
Qed.

Lemma blend_undetermined (s : Z) : blend s None = None.
Proof. reflexivity. Qed.

Lemma nearest_bounds (z : Z) (x : Q) :
  nearest z x -> (x - (1 # 2) <= inject_Z z <= x + (1 # 2))%Q.
Proof.
  unfold nearest. intros H. apply Qabs_Qle_condition in H.
  destruct H as [H1 H2]. split; lra.
Qed.


Lemma pixel_undetermined (l : Z) (b : Np.uint8) :
  In b (pixel l None) -> b = None.
Proof.
  unfold pixel. rewrite in_map_iff. intros [s [<- _]].
  destruct (0 <? l); reflexivity.
Qed.

Lemma fold_min_glb (l : list Q) (x c : Q) :
  (c <= x)%Q -> (forall y, In y l -> (c <= y)%Q) ->
  (c <= fold_left Qmin l x)%Q.
Proof.
  revert x. induction l as [|a l IH]; intros x Hx Hl; simpl; [exact Hx|].
  apply IH.
  - apply Q.min_glb; [exact Hx|apply Hl; now left].
  - intros y Hy. apply Hl. now right.
Qed.

Lemma fold_max_lub (l : list Q) (x c : Q) :
  (x <= c)%Q -> (forall y, In y l -> (y <= c)%Q) ->
  (fold_left Qmax l x <= c)%Q.
Proof.
  revert x. induction l as [|a l IH]; intros x Hx Hl; simpl; [exact Hx|].
  apply IH.
  - apply Q.max_lub; [exact Hx|apply Hl; now left].
  - intros y Hy. apply Hl. now right.
Qed.

(** A volume all of whose voxels have one intensity has its maximum equal to
    its minimum. *)
Lemma constant_min_max (vol : Np.ndarray Q) (c : Q) :
  Np.data vol <> [] ->
  (forall v, In v (Np.data vol) -> (v == c)%Q) ->
  exists lo hi,
    Np.amin vol = Ok lo /\ Np.amax vol = Ok hi /\ (hi - lo == 0)%Q.
Proof.
  intros Hne Hc. unfold Np.amin, Np.amax.
  destruct (Np.data vol) as [|x l]; [contradiction|].
  do 2 eexists. split; [reflexivity|]. split; [reflexivity|].
  assert (x == c)%Q as Hx by (apply Hc; now left).
  assert (c <= fold_left Qmin l x)%Q as H1.
  { apply fold_min_glb; [lra|]. intros y Hy.
    assert (y == c)%Q by (apply Hc; now right). lra. }
  assert (fold_left Qmax l x <= c)%Q as H2.
  { apply fold_max_lub; [lra|]. intros y Hy.
    assert (y == c)%Q by (apply Hc; now right). lra. }
  destruct (fold_min_le l x) as [H3 _].
  destruct (fold_max_ge l x) as [H4 _].
  lra.
Qed.

Lemma nth_error_combine_some {A B : Type} (l : list A) (m : list B)
      (k : nat) (x : A) (y : B) :
  nth_error l k = Some x -> nth_error m k = Some y ->
  nth_error (combine l m) k = Some (x, y).
Proof.
  revert m k. induction l as [|a l IH]; intros [|b m] [|k] Hx Hy;
    simpl in *; try discriminate.
  - congruence.
  - now apply IH.
Qed.

(** The output at voxel [k], channel [c]. *)
Lemma overlay_voxel (vol : Np.ndarray Q) (seg : Np.ndarray Z) (lo hi : Q)
      (k c : nat) (label : Z) (v : Q) :
  nth_error (Np.data seg) k = Some label ->
  nth_error (Np.data vol) k = Some v ->
  (c < 3)%nat ->
  nth_error
    (flat_map (fun lg => pixel (fst lg) (snd lg))
       (combine (Np.data seg) (map (grey_of lo hi) (Np.data vol))))
    (3 * k + c)
  = nth_error (pixel label (grey_of lo hi v)) c.
Proof.
  intros Hl Hv Hc.
  apply (nth_error_rows (fun lg => pixel (fst lg) (snd lg)) _ k c
                        (label, grey_of lo hi v)).
  - intros [l g]. apply pixel_length.
  - apply nth_error_combine_some; [exact Hl|].
    now apply map_nth_error.
  - exact Hc.
Qed.

Lemma pixel_nth (label : Z) (g : Np.uint8) (c : nat) (s : Z) :
  nth_error (colour_of label) c = Some s ->
  nth_error (pixel label g) c
  = Some (if 0 <? label then blend s g else g).
Proof.
  intros Hs. unfold pixel.
  now apply (map_nth_error (fun s => if 0 <? label then blend s g else g)).
Qed.

Lemma colour_of_nth (label : Z) (c : nat) :
  (c < 3)%nat -> exists s, nth_error (colour_of label) c = Some s.
Proof.
  intros Hc. destruct (nth_error (colour_of label) c) eqn:E; [eauto|].
  apply nth_error_None in E. rewrite colour_of_length in E. lia.
Qed.


Lemma colour_of_component (l s : Z) :
  In s (colour_of l) -> s = 0 \/ s = 255.
Proof.
  unfold colour_of.
  destruct ((l =? 1) || (l =? 2)); [|destruct (l =? 3)];
    simpl; intros H; repeat destruct H as [<-|H]; auto; contradiction.
Qed.

(** Where the difference of maximum and minimum is a positive finite float,
    every output element is a determined byte. *)
Lemma overlay_determined (vol : Np.ndarray Q) (seg : Np.ndarray Z)
      (s0 s1 s2 : nat) (lo hi d : Q) :
  Np.wf seg -> Np.shape seg = [s0; s1; s2] -> Np.shape vol = Np.shape seg ->
  Np.amin vol = Ok lo -> Np.amax vol = Ok hi ->
  Np.fsub (Np.Fin hi) (Np.Fin lo) = Np.Fin d -> (0 < d)%Q ->
  exists out,
    overlay_segmentation vol seg = Ok out /\
    forall b, In b (Np.data out) -> exists z, b = Some z /\ 0 <= z <= 255.
Proof.
  intros Hwf Hs Hsame Hlo Hhi Hd Hdpos. eexists.
  split; [apply (overlay_segmentation_ok vol seg s0 s1 s2 Hwf Hs Hsame lo hi Hlo Hhi)|].
  cbn [Np.data]. intros b Hb.
  apply in_flat_map in Hb. destruct Hb as [[l g] [Hlg Hb]].
  apply in_combine_r in Hlg. apply in_map_iff in Hlg.
  destruct Hlg as [v [<- Hv]].
  destruct (grey_of_determined lo hi v d Hd Hdpos
              (min_max_bounds vol lo hi v Hlo Hhi Hv)) as [g [Hg Hrange]].
  cbn [fst snd] in Hb. rewrite Hg in Hb. unfold pixel in Hb.
  apply in_map_iff in Hb. destruct Hb as [s [<- Hsc]].
  destruct (0 <? l).
  - destruct (blend_nearest s g (colour_of_component l s Hsc) Hrange)
      as [z [-> [Hz _]]].
    eauto.
  - eauto.
Qed.

(** ** The compositor on the sample volumes *)

Example overlay_sample :
  overlay_segmentation sample_vol sample_seg
  = Ok (Np.mk_ndarray [1%nat; 2%nat; 2%nat; 3%nat]
          [Some 0; Some 0; Some 0;
           Some 178; Some 178; Some 255;
           Some 166; Some 90; Some 90;
           Some 36; Some 36; Some 36]).
Proof. vm_compute. reflexivity. Qed.

Example greyscale_sample :
  vol_greyscale sample_vol
  = Ok (Np.mk_ndarray [1%nat; 2%nat; 2%nat]
          [Some 0; Some 255; Some 128; Some 51]).
Proof. vm_compute. reflexivity. Qed.

Example overlay_empty :
  overlay_segmentation (ivol1 []) (vol1 []) = Raise ValueError.
Proof. reflexivity. Qed.

Example overlay_flat_seg :
  overlay_segmentation (Np.mk_ndarray [2%nat] [0; 1]%Q)
                       (Np.mk_ndarray [2%nat] [0; 1])
  = Raise IndexError.
Proof. reflexivity. Qed.

Example scores_shape_mismatch :
  calc_DSC (vol1 [0; 1]) (vol1 [0; 1; 1]) 4 = Raise ValueError.
Proof. reflexivity. Qed.

(** * The properties of the specification, C1 to C10 *)

(** C1 (the code departs from the claim).  Dice of class [i] is
    2|pred_i ∩ truth_i| / (|pred_i| + |truth_i|) when the divisor is not zero
    ([calc_DSC_value]); when it is zero the claim says 0, and the code
    returns nan: the division is numpy's, which does not raise
    ZeroDivisionError, so the handler that appends 0.0 is never entered
    ([calc_DSC_nan]).  Here class 3 occurs in neither volume. *)
Theorem C1_calc_DSC_absent_class :
  calc_DSC sample_truth sample_pred 4
  = Ok [Np.Fin 1; Np.Fin (2 # 3); Np.Fin (2 # 3); Np.NaN].
Proof. vm_compute. reflexivity. Qed.

(** C2 (the code departs from the claim).  Sensitivity of class [i] is
    |pred_i ∩ truth_i| / |truth_i| when truth has voxels of class [i]
    ([calc_Sensitivity_value]); when it has none the claim says 0.0, and the
    code returns nan ([calc_Sensitivity_nan]), for the reason given at C1.
    Here truth has no voxel of class 3. *)
Theorem C2_calc_Sensitivity_absent_class :
  calc_Sensitivity sample_truth sample_pred 4
  = Ok [Np.Fin 1; Np.Fin 1; Np.Fin (1 # 2); Np.NaN].
Proof. vm_compute. reflexivity. Qed.

(** C3 (the code departs from the claim).  Specificity of class [i] is
    |¬pred_i ∩ ¬truth_i| / |¬truth_i| when some voxel of truth is not
    labelled [i] ([calc_Specificity_value]); when all are the claim says 0.0,
    and the code returns nan ([calc_Specificity_nan]), for the reason given
    at C1.  Here every voxel of truth has class 1. *)
Theorem C3_calc_Specificity_full_class :
  calc_Specificity all_left_lung sample_pred 4
  = Ok [Np.Fin (3 # 4); Np.NaN; Np.Fin (3 # 4); Np.Fin 1].
Proof. vm_compute. reflexivity. Qed.

(** C4, as amended.  With truth = pred = v and a class [i] that occurs in
    [v], Dice and Sensitivity are 1.0 at [i]; Specificity is 1.0 at [i] when
    in addition some voxel of [v] is not labelled [i]. *)
Theorem C4_identical_volumes (v : Np.ndarray Z) (classes i : Z) :
  fits_int64 v ->
  0 <= i < classes ->
  In i (Np.data v) ->
  score_at (calc_DSC v v classes) i (Np.Fin 1) /\
  score_at (calc_Sensitivity v v classes) i (Np.Fin 1) /\
  ((exists x, In x (Np.data v) /\ x <> i) ->
   score_at (calc_Specificity v v classes) i (Np.Fin 1)).
Proof.
  intros Hfits Hi Hin.
  assert (0 < card (is_class i) (Np.data v))%nat as Hpos.
  { apply (card_pos _ _ i Hin). unfold is_class. apply Z.eqb_refl. }
  split; [|split].
  - eexists. split; [now apply calc_DSC_ok|].
    rewrite map_range_nth by assumption.
    rewrite dice_of_counts by auto. rewrite card2_self.
    replace (Z.of_nat (card (is_class i) (Np.data v))
             + Z.of_nat (card (is_class i) (Np.data v)))
      with (2 * Z.of_nat (card (is_class i) (Np.data v))) by lia.
    rewrite true_divide_self by lia. reflexivity.
  - eexists. split; [now apply calc_Sensitivity_ok|].
    rewrite map_range_nth by assumption.
    rewrite sens_of_counts by auto. rewrite card2_self.
    rewrite true_divide_self by lia. reflexivity.
  - intros [x [Hx Hne]].
    assert (0 < card (not_class i) (Np.data v))%nat as Hpos'.
    { apply (card_pos _ _ x Hx). unfold not_class.
      apply negb_true_iff, Z.eqb_neq, Hne. }
    eexists. split; [now apply calc_Specificity_ok|].
    rewrite map_range_nth by assumption.
    rewrite spec_of_counts by auto. rewrite card2_self.
    rewrite true_divide_self by lia. reflexivity.
Qed.

Lemma C4_identical_volumes_witness :
  score_at (calc_DSC sample_truth sample_truth 4) 1 (Np.Fin 1) /\
  score_at (calc_Sensitivity sample_truth sample_truth 4) 1 (Np.Fin 1) /\
  ((exists x, In x (Np.data sample_truth) /\ x <> 1) ->
   score_at (calc_Specificity sample_truth sample_truth 4) 1 (Np.Fin 1)).
Proof.
  apply (C4_identical_volumes sample_truth 4 1).
  - reflexivity.
  - lia.
  - simpl. auto.
Defined.

(** C4 as stated fails where every voxel of [v] has class [i]: the class is
    present, and Specificity at [i] is not 1.0 (its divisor |¬v_i| is
    zero). *)
Lemma C4_counterexample :
  0 <= 0 < 4 /\
  In 0 (Np.data all_background) /\
  ~ score_at (calc_Specificity all_background all_background 4) 0 (Np.Fin 1).
Proof.
  split; [lia|]. split; [simpl; auto|].
  intros [l [Hl Hx]]. vm_compute in Hl.
  injection Hl as <-. discriminate Hx.
Qed.

(** C5 (the code departs from the claim).  With disjoint label sets Dice
    is 0.0 only for the classes one of the volumes uses; for a class neither
    uses the code returns nan ([calc_DSC_disjoint]), for the reason given at
    C1.  Here truth is all background and pred all class 1. *)
Theorem C5_calc_DSC_disjoint_labels :
  calc_DSC all_background all_left_lung 4
  = Ok [Np.Fin 0; Np.Fin 0; Np.NaN; Np.NaN].
Proof. vm_compute. reflexivity. Qed.

(** C6 (the code departs from the claim).  Each list has [classes]
    elements ([scores_length]) and each element is a number of [0, 1] or nan
    ([calc_DSC_range] and its siblings); nan does occur, for the reason
    given at C1, and is no number of [0, 1]. *)
Theorem C6_scores_not_all_in_unit_interval :
  exists d s sp,
    calc_DSC sample_truth sample_pred 4 = Ok d /\
    calc_Sensitivity sample_truth sample_pred 4 = Ok s /\
    calc_Specificity all_left_lung sample_pred 4 = Ok sp /\
    length d = 4%nat /\ length s = 4%nat /\ length sp = 4%nat /\
    nth_error d 3 = Some Np.NaN /\
    nth_error s 3 = Some Np.NaN /\
    nth_error sp 1 = Some Np.NaN /\
    ~ in_unit_interval Np.NaN.
Proof.
  do 3 eexists.
  split; [vm_compute; reflexivity|].
  split; [vm_compute; reflexivity|].
  split; [vm_compute; reflexivity|].
  repeat (split; [reflexivity|]).
  intros [q [Hq _]]. discriminate Hq.
Qed.




(** C8.  The output of [overlay_segmentation] has the shape of its inputs
    with one more, last, axis of length 3 (and a buffer of that size), and
    at every voxel whose label is 0 the three output channels are the
    greyscale value of the voxel, unblended.  The volume is taken to have at
    least one voxel. *)
Theorem C8_overlay_shape_background (vol : Np.ndarray Q) (seg : Np.ndarray Z)
        (s0 s1 s2 : nat) :
  Np.wf vol -> Np.wf seg ->
  Np.shape seg = [s0; s1; s2] -> Np.shape vol = Np.shape seg ->
  Np.data vol <> [] ->
  exists grey out,
    vol_greyscale vol = Ok grey /\
    overlay_segmentation vol seg = Ok out /\
    Np.shape out = Np.shape vol ++ [3%nat] /\
    Np.wf out /\
    forall k g,
      voxel seg k = Some 0 -> voxel grey k = Some g ->
      forall c, (c < 3)%nat -> channel out k c = Some g.
Proof.
  intros Hwv Hwf Hs Hsame Hne.
  destruct (min_max_exist vol Hne) as [lo [hi [Hlo Hhi]]].
  do 2 eexists.
  split; [apply (vol_greyscale_ok vol lo hi Hlo Hhi)|].
  split; [apply (overlay_segmentation_ok vol seg s0 s1 s2 Hwf Hs Hsame lo hi Hlo Hhi)|].
  split; [cbn [Np.shape]; now rewrite Hsame|].
  split.
  - unfold Np.wf. cbn [Np.shape Np.data].
    rewrite length_rows by (intros [l g]; apply pixel_length).
    rewrite length_combine, length_map.
    unfold Np.wf in Hwv, Hwf. rewrite Hwv, Hwf, Hsame, Hs.
    unfold Np.size_of. simpl. lia.
  - intros k g Hl Hg c Hc.
    unfold voxel in Hg. cbn [Np.data] in Hg.
    rewrite nth_error_map in Hg.
    destruct (nth_error (Np.data vol) k) as [v|] eqn:Hv; [|discriminate].
    simpl in Hg. injection Hg as <-.
    unfold channel. cbn [Np.data].
    rewrite (overlay_voxel vol seg lo hi k c 0 v Hl Hv Hc).
    destruct (colour_of_nth 0 c Hc) as [s Hsc].
    now rewrite (pixel_nth 0 _ c s Hsc).
Qed.

Lemma C8_overlay_shape_background_witness :
  exists grey out,
    vol_greyscale sample_vol = Ok grey /\
    overlay_segmentation sample_vol sample_seg = Ok out /\
    Np.shape out = Np.shape sample_vol ++ [3%nat] /\
    Np.wf out /\
    forall k g,
      voxel sample_seg k = Some 0 -> voxel grey k = Some g ->
      forall c, (c < 3)%nat -> channel out k c = Some g.
Proof.
  apply (C8_overlay_shape_background sample_vol sample_seg 1 2 2).
  - reflexivity.
  - reflexivity.
  - reflexivity.
  - reflexivity.
  - discriminate.
Defined.

(** C9.  [overlay_segmentation] has no guard for an intensity volume whose
    global maximum is not strictly greater than its global minimum, that is,
    for a constant volume: the divisor max - min of the normalisation is
    zero, every element of [vol_scaled] is nan, and neither the greyscale
    bytes nor the output bytes are determined. *)
Theorem C9_constant_volume_undetermined (vol : Np.ndarray Q)
        (seg : Np.ndarray Z) (s0 s1 s2 : nat) (lo hi : Q) :
  Np.wf seg -> Np.shape seg = [s0; s1; s2] -> Np.shape vol = Np.shape seg ->
  Np.amin vol = Ok lo -> Np.amax vol = Ok hi ->
  ~ (lo < hi)%Q ->
  (hi - lo == 0)%Q /\
  (forall v, In v (Np.data vol) -> (v == lo)%Q) /\
  exists scaled grey out,
    vol_scaled vol = Ok scaled /\
    length (Np.data scaled) = length (Np.data vol) /\
    (forall x, In x (Np.data scaled) -> x = Np.NaN) /\
    vol_greyscale vol = Ok grey /\
    (forall b, In b (Np.data grey) -> b = None) /\
    overlay_segmentation vol seg = Ok out /\
    (forall b, In b (Np.data out) -> b = None).
Proof.
  intros Hwf Hs Hsame Hlo Hhi Hnlt.
  pose proof (min_max_bounds vol lo hi) as Hbounds.
  specialize (fun v => Hbounds v Hlo Hhi).
  assert (hi <= lo)%Q as Hle by now apply Qnot_lt_le.
  assert (Np.data vol <> []) as Hne.
  { unfold Np.amin in Hlo. destruct (Np.data vol); [discriminate|congruence]. }
  assert (lo <= hi)%Q as Hle'.
  { destruct (Np.data vol) as [|x l] eqn:E; [contradiction|].
    destruct (Hbounds x) as [H1 H2]; [now left|]. lra. }
  split; [lra|].
  split; [intros v Hv; destruct (Hbounds v Hv); lra|].
  do 3 eexists.
  split; [unfold vol_scaled; rewrite Hlo, Hhi; reflexivity|].
  split; [unfold Np.map1; cbn [Np.data]; now rewrite !length_map|].
  split.
  { unfold Np.map1. cbn [Np.data]. rewrite map_map.
    intros x Hx. apply in_map_iff in Hx. destruct Hx as [v [<- Hv]].
    apply scaled_nan; [exact Hnlt|now apply Hbounds]. }
  split; [apply (vol_greyscale_ok vol lo hi Hlo Hhi)|].
  assert (forall b, In b (map (grey_of lo hi) (Np.data vol)) -> b = None)
    as Hgrey.
  { intros b Hb. apply in_map_iff in Hb. destruct Hb as [v [<- Hv]].
    apply grey_of_undetermined; [exact Hnlt|now apply Hbounds]. }
  split; [exact Hgrey|].
  split; [apply (overlay_segmentation_ok vol seg s0 s1 s2 Hwf Hs Hsame lo hi Hlo Hhi)|].
  cbn [Np.data]. intros b Hb.
  apply in_flat_map in Hb. destruct Hb as [[l g] [Hlg Hb]].
  apply in_combine_r in Hlg. apply Hgrey in Hlg. subst g.
  now apply (pixel_undetermined l).
Qed.

Lemma C9_constant_volume_undetermined_witness :
  (5 - 5 == 0)%Q /\
  (forall v, In v (Np.data constant_vol) -> (v == 5)%Q) /\
  exists scaled grey out,
    vol_scaled constant_vol = Ok scaled /\
    length (Np.data scaled) = length (Np.data constant_vol) /\
    (forall x, In x (Np.data scaled) -> x = Np.NaN) /\
    vol_greyscale constant_vol = Ok grey /\
    (forall b, In b (Np.data grey) -> b = None) /\
    overlay_segmentation constant_vol sample_seg = Ok out /\
    (forall b, In b (Np.data out) -> b = None).
Proof.
  apply (C9_constant_volume_undetermined constant_vol sample_seg 1 2 2 5 5).
  - reflexivity.
  - reflexivity.
  - reflexivity.
  - reflexivity.
  - reflexivity.
  - unfold Qlt. simpl. lia.
Defined.



(** * Further properties of the score functions *)

Lemma zip_and_comm (a b : list bool) :
  Np.zip_with andb a b = Np.zip_with andb b a.
Proof.
  revert b. induction a as [|x a IH]; intros [|y b]; simpl; try reflexivity.
  now rewrite IH, andb_comm.
Qed.

Lemma dice_of_sym (truth pred : Np.ndarray Z) (i : Z) :
  dice_of truth pred i = dice_of pred truth i.
Proof.
  unfold dice_of. cbn zeta. rewrite zip_and_comm.
  unfold Np.int64_add. now rewrite Z.add_comm.
Qed.

Lemma card_zero_iff (i : Z) (v : list Z) :
  card (is_class i) v = 0%nat <-> ~ In i v.
Proof.
  unfold card. split.
  - intros H Hin.
    assert (In i (filter (is_class i) v)) as Hf
      by (apply filter_In; split; [exact Hin|apply Z.eqb_refl]).
    destruct (filter (is_class i) v); [contradiction|discriminate].
  - intros Hnin. destruct (filter (is_class i) v) as [|x l] eqn:E;
      [reflexivity|].
    exfalso. apply Hnin.
    assert (In x (filter (is_class i) v)) as Hf by (rewrite E; now left).
    apply filter_In in Hf. destruct Hf as [Hin Hx].
    unfold is_class in Hx. apply Z.eqb_eq in Hx. now subst.
Qed.

Lemma card_not_zero_iff (i : Z) (v : list Z) :
  card (not_class i) v = 0%nat <-> forall l, In l v -> l = i.
Proof.
  unfold card. split.
  - intros H l Hin. destruct (Z.eq_dec l i) as [|Hne]; [assumption|].
    assert (In l (filter (not_class i) v)) as Hf.
    { apply filter_In. split; [exact Hin|].
      unfold not_class. now apply negb_true_iff, Z.eqb_neq. }
    destruct (filter (not_class i) v); [contradiction|discriminate].
  - intros Hall. destruct (filter (not_class i) v) as [|x l] eqn:E;
      [reflexivity|].
    exfalso.
    assert (In x (filter (not_class i) v)) as Hf by (rewrite E; now left).
    apply filter_In in Hf. destruct Hf as [Hin Hx].
    unfold not_class in Hx. apply negb_true_iff, Z.eqb_neq in Hx.
    apply Hx. now apply Hall.
Qed.


Lemma quotient_zero_iff (a b : Z) :
  b <> 0 -> (Np.int64_truediv a b = Np.Fin 0 <-> a = 0).
Proof.
  intros Hb. split.
  - rewrite true_divide_nonzero by assumption. intros H.
    apply (f_equal (fun x => match x with Np.Fin r => r | _ => 0%Q end)) in H.
    change (Qred (inject_Z a / inject_Z b) = 0%Q) in H.
    assert (inject_Z a / inject_Z b == 0)%Q as Hq
      by (rewrite <- (Qred_correct (inject_Z a / inject_Z b)), H; reflexivity).
    assert (~ inject_Z b == 0)%Q as Hb'.
    { intros H0. apply Hb. unfold Qeq in H0. simpl in H0. lia. }
    assert (inject_Z a == 0)%Q as Ha.
    { rewrite <- (Qmult_0_l (inject_Z b)), <- Hq. field. exact Hb'. }
    unfold Qeq in Ha. simpl in Ha. lia.
  - intros ->. now apply quotient_zero.
Qed.

Lemma quotient_not_nan (a b : Z) : b <> 0 -> Np.int64_truediv a b <> Np.NaN.
Proof. intros Hb. now rewrite true_divide_nonzero. Qed.

Lemma score_at_unique (r : result (list Np.float64)) (i : Z)
      (x y : Np.float64) :
  score_at r i x -> score_at r i y -> x = y.
Proof. intros [l [-> Hx]] [l' [Hl Hy]]. congruence. Qed.

Lemma card2_zero_iff (i : Z) (p t : list Z) :
  card2 (is_class i) p t = 0%nat <->
  forall k, ~ (nth_error p k = Some i /\ nth_error t k = Some i).
Proof.
  unfold card2. revert t.
  induction p as [|x p IH]; intros [|y t]; simpl.
  - split; [intros _ [|k] [H _]; discriminate|reflexivity].
  - split; [intros _ [|k] [H _]; discriminate|reflexivity].
  - split; [intros _ [|k] [_ H]; discriminate|reflexivity].
  - unfold is_class at 1 2.
    destruct (Z.eqb_spec x i) as [->|Hx], (Z.eqb_spec y i) as [->|Hy]; simpl.
    + split; [discriminate|]. intros H. exfalso. apply (H 0%nat). now split.
    + rewrite IH. split.
      * intros H [|k] [H1 H2]; simpl in *; [congruence|]. now apply (H k).
      * intros H k. apply (H (S k)).
    + rewrite IH. split.
      * intros H [|k] [H1 H2]; simpl in *; [congruence|]. now apply (H k).
      * intros H k. apply (H (S k)).
    + rewrite IH. split.
      * intros H [|k] [H1 H2]; simpl in *; [congruence|]. now apply (H k).
      * intros H k. apply (H (S k)).
Qed.







(** X1.  Dice is symmetric: exchanging ground truth and prediction leaves
    the list returned by [calc_DSC] unchanged. *)
Theorem X1_calc_DSC_symmetric (truth pred : Np.ndarray Z) (classes : Z) :
  Np.shape truth = Np.shape pred ->
  calc_DSC truth pred classes = calc_DSC pred truth classes.
Proof.
  intros Hs. rewrite (calc_DSC_ok truth pred Hs).
  rewrite (calc_DSC_ok pred truth (eq_sym Hs)).
  apply f_equal. apply map_ext. intros i. apply dice_of_sym.
Qed.

Lemma X1_calc_DSC_symmetric_witness :
  calc_DSC sample_truth sample_pred 4 = calc_DSC sample_pred sample_truth 4.
Proof. apply (X1_calc_DSC_symmetric sample_truth sample_pred 4). reflexivity. Defined.

(** X2.  The Dice score of class [i] is nan exactly when class [i] occurs
    in neither volume; in every other case it is a number of [0, 1]. *)
Theorem X2_calc_DSC_nan_iff (truth pred : Np.ndarray Z) (classes i : Z) :
  Np.wf truth -> Np.wf pred -> Np.shape truth = Np.shape pred ->
  fits_int64 truth -> 0 <= i < classes ->
  exists x,
    score_at (calc_DSC truth pred classes) i x /\
    (x = Np.NaN <-> ~ In i (Np.data pred) /\ ~ In i (Np.data truth)) /\
    (x <> Np.NaN -> in_unit_interval x).
Proof.
  intros Hwt Hwp Hs Hf Hi.
  pose proof (calc_DSC_at truth pred Hwt Hwp Hs Hf classes i Hi) as Hat.
  eexists. split; [exact Hat|].
  pose proof (card2_le_r (is_class i) (Np.data pred) (Np.data truth)).
  pose proof (card2_le_l (is_class i) (Np.data pred) (Np.data truth)).
  rewrite <- !card_zero_iff.
  destruct (Nat.eq_dec (card (is_class i) (Np.data pred)
                        + card (is_class i) (Np.data truth)) 0) as [E|E].
  - rewrite quotient_nan by lia. split; [|congruence].
    split; [intros _; lia|reflexivity].
  - split.
    + split; [|lia]. intros Hn. exfalso. revert Hn.
      apply quotient_not_nan. lia.
    + intros _. apply quotient_unit; lia.
Qed.

Lemma X2_calc_DSC_nan_iff_witness :
  exists x,
    score_at (calc_DSC sample_truth sample_pred 4) 3 x /\
    (x = Np.NaN <->
     ~ In 3 (Np.data sample_pred) /\ ~ In 3 (Np.data sample_truth)) /\
    (x <> Np.NaN -> in_unit_interval x).
Proof.
  apply (X2_calc_DSC_nan_iff sample_truth sample_pred 4 3).
  - reflexivity.
  - reflexivity.
  - reflexivity.
  - reflexivity.
  - lia.
Defined.

(** X3.  The sensitivity of class [i] is nan exactly when the ground truth
    has no voxel of class [i]; in every other case it is a number of
    [0, 1]. *)
Theorem X3_calc_Sensitivity_nan_iff (truth pred : Np.ndarray Z)
        (classes i : Z) :
  Np.wf truth -> Np.wf pred -> Np.shape truth = Np.shape pred ->
  fits_int64 truth -> 0 <= i < classes ->
  exists x,
    score_at (calc_Sensitivity truth pred classes) i x /\
    (x = Np.NaN <-> ~ In i (Np.data truth)) /\
    (x <> Np.NaN -> in_unit_interval x).
Proof.
  intros Hwt Hwp Hs Hf Hi.
  pose proof (calc_Sensitivity_at truth pred Hwt Hwp Hs Hf classes i Hi) as Hat.
  eexists. split; [exact Hat|].
  pose proof (card2_le_r (is_class i) (Np.data pred) (Np.data truth)).
  rewrite <- card_zero_iff.
  destruct (Nat.eq_dec (card (is_class i) (Np.data truth)) 0) as [E|E].
  - rewrite quotient_nan by lia. split; [|congruence].
    split; [intros _; lia|reflexivity].
  - split.
    + split; [|lia]. intros Hn. exfalso. revert Hn.
      apply quotient_not_nan. lia.
    + intros _. apply quotient_unit; lia.
Qed.

Lemma X3_calc_Sensitivity_nan_iff_witness :
  exists x,
    score_at (calc_Sensitivity sample_truth sample_pred 4) 3 x /\
    (x = Np.NaN <-> ~ In 3 (Np.data sample_truth)) /\
    (x <> Np.NaN -> in_unit_interval x).
Proof.
  apply (X3_calc_Sensitivity_nan_iff sample_truth sample_pred 4 3).
  - reflexivity.
  - reflexivity.
  - reflexivity.
  - reflexivity.
  - lia.
Defined.

(** X4.  The specificity of class [i] is nan exactly when every voxel of the
    ground truth has class [i]; in every other case it is a number of
    [0, 1]. *)
Theorem X4_calc_Specificity_nan_iff (truth pred : Np.ndarray Z)
        (classes i : Z) :
  Np.wf truth -> Np.wf pred -> Np.shape truth = Np.shape pred ->
  fits_int64 truth -> 0 <= i < classes ->
  exists x,
    score_at (calc_Specificity truth pred classes) i x /\
    (x = Np.NaN <-> forall l, In l (Np.data truth) -> l = i) /\
    (x <> Np.NaN -> in_unit_interval x).
Proof.
  intros Hwt Hwp Hs Hf Hi.
  pose proof (calc_Specificity_at truth pred Hwt Hwp Hs Hf classes i Hi) as Hat.
  eexists. split; [exact Hat|].
  pose proof (card2_le_r (not_class i) (Np.data pred) (Np.data truth)).
  rewrite <- card_not_zero_iff.
  destruct (Nat.eq_dec (card (not_class i) (Np.data truth)) 0) as [E|E].
  - rewrite quotient_nan by lia. split; [|congruence].
    split; [intros _; lia|reflexivity].
  - split.
    + split; [|lia]. intros Hn. exfalso. revert Hn.
      apply quotient_not_nan. lia.
    + intros _. apply quotient_unit; lia.
Qed.

Lemma X4_calc_Specificity_nan_iff_witness :
  exists x,
    score_at (calc_Specificity all_left_lung sample_pred 4) 1 x /\
    (x = Np.NaN <-> forall l, In l (Np.data all_left_lung) -> l = 1) /\
    (x <> Np.NaN -> in_unit_interval x).
Proof.
  apply (X4_calc_Specificity_nan_iff all_left_lung sample_pred 4 1).
  - reflexivity.
  - reflexivity.
  - reflexivity.
  - reflexivity.
  - lia.
Defined.



(** X6.  The Dice score of class [i] is 0.0 exactly when class [i] occurs in
    at least one of the volumes and at no voxel in both. *)
Theorem X6_calc_DSC_zero_iff (truth pred : Np.ndarray Z) (classes i : Z) :
  Np.wf truth -> Np.wf pred -> Np.shape truth = Np.shape pred ->
  fits_int64 truth -> 0 <= i < classes ->
  (score_at (calc_DSC truth pred classes) i (Np.Fin 0) <->
   (In i (Np.data pred) \/ In i (Np.data truth)) /\
   forall k, ~ (voxel pred k = Some i /\ voxel truth k = Some i)).
Proof.
  intros Hwt Hwp Hs Hf Hi.
  pose proof (calc_DSC_at truth pred Hwt Hwp Hs Hf classes i Hi) as Hat.
  pose proof (card2_le_r (is_class i) (Np.data pred) (Np.data truth)) as Hr.
  unfold voxel. rewrite <- card2_zero_iff.
  pose proof (card_zero_iff i (Np.data pred)) as Zp.
  pose proof (card_zero_iff i (Np.data truth)) as Zt.
  destruct (Nat.eq_dec (card (is_class i) (Np.data pred)
                        + card (is_class i) (Np.data truth)) 0) as [E0|E0].
  - rewrite quotient_nan in Hat by lia. split.
    + intros H0. pose proof (score_at_unique _ _ _ _ Hat H0). discriminate.
    + intros [[Hin|Hin] _]; exfalso; [apply Zp in Hin|apply Zt in Hin];
        try lia; exact I.
  - split.
    + intros H0. pose proof (score_at_unique _ _ _ _ Hat H0) as E.
      apply quotient_zero_iff in E; [|lia]. split; [|lia].
      destruct (in_dec Z.eq_dec i (Np.data pred)) as [|Hn]; [now left|].
      destruct (in_dec Z.eq_dec i (Np.data truth)) as [|Hn']; [now right|].
      apply Zp in Hn. apply Zt in Hn'. lia.
    + intros [_ Hc2]. rewrite Hc2 in Hat.
      change (2 * Z.of_nat 0) with 0 in Hat.
      rewrite quotient_zero in Hat by lia. exact Hat.
Qed.

Lemma X6_calc_DSC_zero_iff_witness :
  score_at (calc_DSC all_background all_left_lung 4) 1 (Np.Fin 0) <->
  (In 1 (Np.data all_left_lung) \/ In 1 (Np.data all_background)) /\
  forall k, ~ (voxel all_left_lung k = Some 1
               /\ voxel all_background k = Some 1).
Proof.
  apply (X6_calc_DSC_zero_iff all_background all_left_lung 4 1).
  - reflexivity.
  - reflexivity.
  - reflexivity.
  - reflexivity.
  - lia.
Defined.





(** X9.  On two volumes of one shape none of the three score functions
    raises, and each returns exactly max(classes, 0) scores: the empty list
    when [classes] is zero or negative. *)
Theorem X9_scores_returned (truth pred : Np.ndarray Z) (classes : Z) :
  Np.shape truth = Np.shape pred ->
  exists d s sp,
    calc_DSC truth pred classes = Ok d /\
    calc_Sensitivity truth pred classes = Ok s /\
    calc_Specificity truth pred classes = Ok sp /\
    Z.of_nat (length d) = Z.max 0 classes /\
    Z.of_nat (length s) = Z.max 0 classes /\
    Z.of_nat (length sp) = Z.max 0 classes.
Proof.
  intros Hs. do 3 eexists.
  split; [now apply calc_DSC_ok|].
  split; [now apply calc_Sensitivity_ok|].
  split; [now apply calc_Specificity_ok|].
  rewrite !length_map, !range_length. lia.
Qed.

Lemma X9_scores_returned_witness :
  exists d s sp,
    calc_DSC sample_truth sample_pred (-1) = Ok d /\
    calc_Sensitivity sample_truth sample_pred (-1) = Ok s /\
    calc_Specificity sample_truth sample_pred (-1) = Ok sp /\
    Z.of_nat (length d) = Z.max 0 (-1) /\
    Z.of_nat (length s) = Z.max 0 (-1) /\
    Z.of_nat (length sp) = Z.max 0 (-1).
Proof.
  apply (X9_scores_returned sample_truth sample_pred (-1)). reflexivity.
Defined.

Lemma firstn_seq_le (n m a : nat) :
  (n <= m)%nat -> firstn n (seq a m) = seq a n.
Proof.
  revert m a. induction n as [|n IH]; intros [|m] a H; simpl;
    try reflexivity; try lia.
  rewrite IH by lia. reflexivity.
Qed.

Lemma range_prefix (n m : Z) :
  n <= m -> range n = firstn (Z.to_nat n) (range m).
Proof.
  intros H. unfold range. rewrite firstn_map, firstn_seq_le by lia.
  reflexivity.
Qed.

(** X10.  The score of a class does not depend on how many classes are
    asked for: the list computed for [n] classes is the beginning of the
    list computed for [m >= n] classes, for each of the three functions. *)
Theorem X10_scores_prefix (truth pred : Np.ndarray Z) (n m : Z) :
  Np.shape truth = Np.shape pred -> n <= m ->
  exists d s sp,
    calc_DSC truth pred m = Ok d /\
    calc_Sensitivity truth pred m = Ok s /\
    calc_Specificity truth pred m = Ok sp /\
    calc_DSC truth pred n = Ok (firstn (Z.to_nat n) d) /\
    calc_Sensitivity truth pred n = Ok (firstn (Z.to_nat n) s) /\
    calc_Specificity truth pred n = Ok (firstn (Z.to_nat n) sp).
Proof.
  intros Hs Hnm. do 3 eexists.
  split; [now apply calc_DSC_ok|].
  split; [now apply calc_Sensitivity_ok|].
  split; [now apply calc_Specificity_ok|].
  rewrite (calc_DSC_ok truth pred Hs n), (calc_Sensitivity_ok truth pred Hs n),
    (calc_Specificity_ok truth pred Hs n).
  rewrite (range_prefix n m Hnm), !firstn_map. auto.
Qed.

Lemma X10_scores_prefix_witness :
  exists d s sp,
    calc_DSC sample_truth sample_pred 4 = Ok d /\
    calc_Sensitivity sample_truth sample_pred 4 = Ok s /\
    calc_Specificity sample_truth sample_pred 4 = Ok sp /\
    calc_DSC sample_truth sample_pred 2 = Ok (firstn (Z.to_nat 2) d) /\
    calc_Sensitivity sample_truth sample_pred 2 = Ok (firstn (Z.to_nat 2) s) /\
    calc_Specificity sample_truth sample_pred 2 = Ok (firstn (Z.to_nat 2) sp).
Proof.
  apply (X10_scores_prefix sample_truth sample_pred 2 4).
  - reflexivity.
  - lia.
Defined.

(** * Further properties of the compositor *)

(** X11.  On an intensity volume without voxels [overlay_segmentation]
    raises ValueError ([np.min] of an empty array), whatever the label
    volume. *)
Theorem X11_overlay_empty_volume (vol : Np.ndarray Q) (seg : Np.ndarray Z) :
  Np.data vol = [] -> overlay_segmentation vol seg = Raise ValueError.
Proof.
  intros He. unfold overlay_segmentation, vol_greyscale, vol_scaled, Np.amin.
  rewrite He. reflexivity.
Qed.

Lemma X11_overlay_empty_volume_witness :
  overlay_segmentation (Np.mk_ndarray [0%nat; 2%nat; 2%nat] []) sample_seg
  = Raise ValueError.
Proof. apply X11_overlay_empty_volume. reflexivity. Defined.

(** X12.  On a label array with fewer than three axes
    [overlay_segmentation] raises IndexError ([shp[2]] or an earlier index
    of the shape tuple is out of range), whatever the intensities of a
    non-empty volume. *)
Theorem X12_overlay_seg_few_axes (vol : Np.ndarray Q) (seg : Np.ndarray Z) :
  Np.data vol <> [] -> (length (Np.shape seg) < 3)%nat ->
  overlay_segmentation vol seg = Raise IndexError.
Proof.
  intros Hne Hlen.
  destruct (min_max_exist vol Hne) as [lo [hi [Hlo Hhi]]].
  unfold overlay_segmentation.
  rewrite (vol_greyscale_ok vol lo hi Hlo Hhi). cbn [bind].
  unfold Np.stack3. cbn [Np.shape Np.data].
  rewrite !shape_eqb_refl. cbn [andb bind].
  unfold seg_rgb_of.
  destruct (Np.shape seg) as [|a [|b [|c s]]]; try reflexivity.
  simpl in Hlen. lia.
Qed.

Lemma X12_overlay_seg_few_axes_witness :
  overlay_segmentation (Np.mk_ndarray [2%nat; 2%nat] [0; 10; 5; 2]%Q)
                       (Np.mk_ndarray [2%nat; 2%nat] [0; 1; 3; 4])
  = Raise IndexError.
Proof.
  apply X12_overlay_seg_few_axes.
  - discriminate.
  - simpl. lia.
Defined.

(** X13.  When the difference of the global maximum and the global minimum
    of the intensities, as binary64 computes it, is a positive finite
    number, [overlay_segmentation] returns an array all of whose elements
    are determined bytes between 0 and 255: no conversion to [uint8] leaves
    the range of the type. *)
Theorem X13_overlay_bytes (vol : Np.ndarray Q) (seg : Np.ndarray Z)
        (s0 s1 s2 : nat) (lo hi d : Q) :
  Np.wf seg -> Np.shape seg = [s0; s1; s2] -> Np.shape vol = Np.shape seg ->
  Np.amin vol = Ok lo -> Np.amax vol = Ok hi ->
  Np.fsub (Np.Fin hi) (Np.Fin lo) = Np.Fin d -> (0 < d)%Q ->
  exists out,
    overlay_segmentation vol seg = Ok out /\
    forall b, In b (Np.data out) -> exists z, b = Some z /\ 0 <= z <= 255.
Proof.
  intros Hwf Hs Hsame Hlo Hhi Hd Hdpos.
  exact (overlay_determined vol seg s0 s1 s2 lo hi d
           Hwf Hs Hsame Hlo Hhi Hd Hdpos).
Qed.

Lemma X13_overlay_bytes_witness :
  exists out,
    overlay_segmentation sample_vol sample_seg = Ok out /\
    forall b, In b (Np.data out) -> exists z, b = Some z /\ 0 <= z <= 255.
Proof.
  apply (X13_overlay_bytes sample_vol sample_seg 1 2 2 0 10 10).
  - reflexivity.
  - reflexivity.
  - reflexivity.
  - reflexivity.
  - reflexivity.
  - vm_compute. reflexivity.
  - reflexivity.
Defined.

Lemma Qmin_cases (x y : Q) : Qmin x y = x \/ Qmin x y = y.
Proof.
  unfold Qmin, GenericMinMax.gmin. destruct (x ?= y)%Q; auto.
Qed.

Lemma Qmax_cases (x y : Q) : Qmax x y = x \/ Qmax x y = y.
Proof.
  unfold Qmax, GenericMinMax.gmax. destruct (x ?= y)%Q; auto.
Qed.

Lemma fold_min_in (l : list Q) (x : Q) : In (fold_left Qmin l x) (x :: l).
Proof.
  revert x. induction l as [|a l IH]; intros x; simpl; [now left|].
  specialize (IH (Qmin x a)). set (m := fold_left Qmin l (Qmin x a)) in *.
  destruct IH as [H|H]; [|now right; right].
  destruct (Qmin_cases x a) as [E|E]; rewrite E in H;
    [left|right; left]; exact H.
Qed.

Lemma fold_max_in (l : list Q) (x : Q) : In (fold_left Qmax l x) (x :: l).
Proof.
  revert x. induction l as [|a l IH]; intros x; simpl; [now left|].
  specialize (IH (Qmax x a)). set (m := fold_left Qmax l (Qmax x a)) in *.
  destruct IH as [H|H]; [|now right; right].
  destruct (Qmax_cases x a) as [E|E]; rewrite E in H;
    [left|right; left]; exact H.
Qed.

(** X14.  When the difference of the global maximum and the global minimum,
    as binary64 computes it, is a positive finite number, the greyscale
    uses the whole range: every voxel of minimal intensity has greyscale 0,
    every voxel of maximal intensity has greyscale 255, and there is a voxel
    of each kind. *)
Theorem X14_greyscale_full_range (vol : Np.ndarray Q) (lo hi d : Q) :
  Np.amin vol = Ok lo -> Np.amax vol = Ok hi ->
  Np.fsub (Np.Fin hi) (Np.Fin lo) = Np.Fin d -> (0 < d)%Q ->
  exists grey,
    vol_greyscale vol = Ok grey /\
    (forall k v, voxel vol k = Some v ->
       ((v == lo)%Q -> voxel grey k = Some (Some 0)) /\
       ((v == hi)%Q -> voxel grey k = Some (Some 255))) /\
    (exists k, voxel grey k = Some (Some 0)) /\
    (exists k, voxel grey k = Some (Some 255)).
Proof.
  intros Hlo Hhi Hd Hdpos. eexists.
  split; [apply (vol_greyscale_ok vol lo hi Hlo Hhi)|].
  unfold voxel. cbn [Np.data].
  assert (forall k v, nth_error (Np.data vol) k = Some v ->
            ((v == lo)%Q ->
             nth_error (map (grey_of lo hi) (Np.data vol)) k = Some (Some 0)) /\
            ((v == hi)%Q ->
             nth_error (map (grey_of lo hi) (Np.data vol)) k = Some (Some 255)))
    as Hall.
  { intros k v Hv. split; intros E;
      rewrite (map_nth_error (grey_of lo hi) _ _ Hv); apply f_equal;
      [now apply (grey_of_min lo hi v d)|now apply (grey_of_max lo hi v d)]. }
  split; [exact Hall|].
  unfold Np.amin in Hlo. unfold Np.amax in Hhi.
  destruct (Np.data vol) as [|x l] eqn:E; [discriminate|].
  injection Hlo as Hlo. injection Hhi as Hhi.
  pose proof (fold_min_in l x) as Hmin. rewrite Hlo in Hmin.
  pose proof (fold_max_in l x) as Hmax. rewrite Hhi in Hmax.
  apply In_nth_error in Hmin. apply In_nth_error in Hmax.
  destruct Hmin as [k Hk]. destruct Hmax as [k' Hk'].
  split.
  - exists k. apply (Hall k lo Hk). reflexivity.
  - exists k'. apply (Hall k' hi Hk'). reflexivity.
Qed.

Lemma X14_greyscale_full_range_witness :
  exists grey,
    vol_greyscale sample_vol = Ok grey /\
    (forall k v, voxel sample_vol k = Some v ->
       ((v == 0)%Q -> voxel grey k = Some (Some 0)) /\
       ((v == 10)%Q -> voxel grey k = Some (Some 255))) /\
    (exists k, voxel grey k = Some (Some 0)) /\
    (exists k, voxel grey k = Some (Some 255)).
Proof.
  apply (X14_greyscale_full_range sample_vol 0 10 10).
  - reflexivity.
  - reflexivity.
  - vm_compute. reflexivity.
  - reflexivity.
Defined.

(** X15.  The greyscale preserves the order of the intensities: of two
    voxels, the one with the larger intensity has the larger or the same
    greyscale byte, when the difference of the global maximum and the
    global minimum, as binary64 computes it, is a positive finite number. *)
Theorem X15_greyscale_monotone (vol : Np.ndarray Q) (lo hi d : Q)
        (k k' : nat) (v w : Q) :
  Np.amin vol = Ok lo -> Np.amax vol = Ok hi ->
  Np.fsub (Np.Fin hi) (Np.Fin lo) = Np.Fin d -> (0 < d)%Q ->
  voxel vol k = Some v -> voxel vol k' = Some w -> (v <= w)%Q ->
  exists grey a b,
    vol_greyscale vol = Ok grey /\
    voxel grey k = Some (Some a) /\ voxel grey k' = Some (Some b) /\
    0 <= a <= b /\ b <= 255.
Proof.
  intros Hlo Hhi Hd Hdpos Hv Hw Hvw.
  pose proof (min_max_bounds vol lo hi v Hlo Hhi (nth_error_In _ _ Hv)) as Bv.
  pose proof (min_max_bounds vol lo hi w Hlo Hhi (nth_error_In _ _ Hw)) as Bw.
  destruct (grey_of_order lo hi v w d Hd Hdpos)
    as [a [b [Gv [Gw [Ha [Hab Hb]]]]]]; [apply Bv|exact Hvw|apply Bw|].
  exists (Np.map1 (grey_of lo hi) vol), a, b.
  split; [apply (vol_greyscale_ok vol lo hi Hlo Hhi)|].
  unfold voxel. cbn [Np.map1 Np.data].
  split; [rewrite (map_nth_error (grey_of lo hi) _ _ Hv), Gv; reflexivity|].
  split; [rewrite (map_nth_error (grey_of lo hi) _ _ Hw), Gw; reflexivity|].
  lia.
Qed.

Lemma X15_greyscale_monotone_witness :
  exists grey a b,
    vol_greyscale sample_vol = Ok grey /\
    voxel grey 3 = Some (Some a) /\ voxel grey 2 = Some (Some b) /\
    0 <= a <= b /\ b <= 255.
Proof.
  apply (X15_greyscale_monotone sample_vol 0 10 10 3 2 2 5).
  - reflexivity.
  - reflexivity.
  - vm_compute. reflexivity.
  - reflexivity.
  - reflexivity.
  - reflexivity.
  - unfold Qle. simpl. lia.
Defined.

Lemma rows_alike (labels labels' : list Z) (greys : list Np.uint8) :
  Forall2 (fun l l' => forall g, pixel l' g = pixel l g) labels labels' ->
  flat_map (fun lg => pixel (fst lg) (snd lg)) (combine labels' greys)
  = flat_map (fun lg => pixel (fst lg) (snd lg)) (combine labels greys).
Proof.
  intros H. revert greys.
  induction H as [|l l' labels labels' Hl _ IH]; intros [|g greys]; simpl;
    try reflexivity.
  now rewrite Hl, IH.
Qed.

(** X16.  Classes 1 and 2 cannot be told apart in the overlay: two label
    volumes of the same shape which differ only at voxels where both have a
    label among 1 and 2, at any set of voxels, give the same output. *)
Theorem X16_overlay_lungs_alike (vol : Np.ndarray Q) (seg seg' : Np.ndarray Z)
        (s0 s1 s2 : nat) :
  Np.wf seg -> Np.shape seg = [s0; s1; s2] -> Np.shape vol = Np.shape seg ->
  Np.data vol <> [] ->
  Np.shape seg' = Np.shape seg ->
  Forall2 (fun l l' => l' = l \/ ((l = 1 \/ l = 2) /\ (l' = 1 \/ l' = 2)))
          (Np.data seg) (Np.data seg') ->
  overlay_segmentation vol seg' = overlay_segmentation vol seg.
Proof.
  intros Hwf Hs Hsame Hne Hshape Hrel.
  destruct (min_max_exist vol Hne) as [lo [hi [Hlo Hhi]]].
  rewrite (overlay_segmentation_ok vol seg s0 s1 s2 Hwf Hs Hsame lo hi Hlo Hhi).
  assert (Np.wf seg') as Hwf'.
  { unfold Np.wf in *. rewrite Hshape, <- Hwf. symmetry.
    eapply Forall2_length. exact Hrel. }
  assert (Np.shape seg' = [s0; s1; s2]) as Hs' by congruence.
  assert (Np.shape vol = Np.shape seg') as Hsame' by congruence.
  rewrite (overlay_segmentation_ok vol seg' s0 s1 s2
             Hwf' Hs' Hsame' lo hi Hlo Hhi).
  rewrite Hshape. apply f_equal. apply f_equal.
  apply rows_alike.
  eapply Forall2_impl; [|exact Hrel].
  intros l l' [->|[[->| ->] [->| ->]]] g; reflexivity.
Qed.

Lemma X16_overlay_lungs_alike_witness :
  overlay_segmentation tie_vol
    (Np.mk_ndarray [1%nat; 2%nat; 3%nat] [1; 2; 1; 3; 0; 4])
  = overlay_segmentation tie_vol
    (Np.mk_ndarray [1%nat; 2%nat; 3%nat] [1; 1; 2; 3; 0; 4]).
Proof.
  apply (X16_overlay_lungs_alike tie_vol
           (Np.mk_ndarray [1%nat; 2%nat; 3%nat] [1; 1; 2; 3; 0; 4])
           (Np.mk_ndarray [1%nat; 2%nat; 3%nat] [1; 2; 1; 3; 0; 4]) 1 2 3).
  - reflexivity.
  - reflexivity.
  - reflexivity.
  - discriminate.
  - reflexivity.
  - simpl. repeat (apply Forall2_cons; [lia|]). apply Forall2_nil.
Defined.

(** X17.  A voxel with a negative label is treated as background: its three
    output channels are the greyscale of the voxel, unblended (the mask of
    labelled voxels is [np.greater(seg, 0)]). *)
Theorem X17_overlay_negative_label (vol : Np.ndarray Q) (seg : Np.ndarray Z)
        (s0 s1 s2 : nat) :
  Np.wf seg -> Np.shape seg = [s0; s1; s2] -> Np.shape vol = Np.shape seg ->
  Np.data vol <> [] ->
  exists grey out,
    vol_greyscale vol = Ok grey /\
    overlay_segmentation vol seg = Ok out /\
    forall k label g,
      voxel seg k = Some label -> label < 0 -> voxel grey k = Some g ->
      forall c, (c < 3)%nat -> channel out k c = Some g.
Proof.
  intros Hwf Hs Hsame Hne.
  destruct (min_max_exist vol Hne) as [lo [hi [Hlo Hhi]]].
  do 2 eexists.
  split; [apply (vol_greyscale_ok vol lo hi Hlo Hhi)|].
  split; [apply (overlay_segmentation_ok vol seg s0 s1 s2 Hwf Hs Hsame lo hi Hlo Hhi)|].
  intros k label g Hl Hneg Hg c Hc.
  unfold voxel in Hg. cbn [Np.data] in Hg. rewrite nth_error_map in Hg.
  destruct (nth_error (Np.data vol) k) as [v|] eqn:Hv; [|discriminate].
  simpl in Hg. injection Hg as <-.
  unfold channel. cbn [Np.data].
  rewrite (overlay_voxel vol seg lo hi k c label v Hl Hv Hc).
  destruct (colour_of_nth label c Hc) as [s Hsc].
  rewrite (pixel_nth label _ c s Hsc).
  destruct (Z.ltb_spec 0 label); [lia|reflexivity].
Qed.

Lemma X17_overlay_negative_label_witness :
  exists grey out,
    vol_greyscale sample_vol = Ok grey /\
    overlay_segmentation sample_vol
      (Np.mk_ndarray [1%nat; 2%nat; 2%nat] [0; -1; 3; 4]) = Ok out /\
    forall k label g,
      voxel (Np.mk_ndarray [1%nat; 2%nat; 2%nat] [0; -1; 3; 4]) k = Some label ->
      label < 0 -> voxel grey k = Some g ->
      forall c, (c < 3)%nat -> channel out k c = Some g.
Proof.
  apply (X17_overlay_negative_label sample_vol
           (Np.mk_ndarray [1%nat; 2%nat; 2%nat] [0; -1; 3; 4]) 1 2 2).
  - reflexivity.
  - reflexivity.
  - reflexivity.
  - discriminate.
Defined.

Lemma blend_gap (low high b : Z) :
  nearest low ((3 # 10) * inject_Z 0 + (7 # 10) * inject_Z b) ->
  nearest high ((3 # 10) * inject_Z 255 + (7 # 10) * inject_Z b) ->
  76 <= high - low <= 77.
Proof.
  intros Hl Hh. apply nearest_bounds in Hl, Hh.
  destruct Hl as [H3 H4]. destruct Hh as [H1 H2].
  change (inject_Z 255) with 255%Q in H1, H2.
  change (inject_Z 0) with 0%Q in H3, H4.
  assert (inject_Z 75 < inject_Z (high + - low))%Q as Hlow.
  { rewrite inject_Z_plus, inject_Z_opp. change (inject_Z 75) with 75%Q. lra. }
  assert (inject_Z (high + - low) < inject_Z 78)%Q as Hup.
  { rewrite inject_Z_plus, inject_Z_opp. change (inject_Z 78) with 78%Q. lra. }
  rewrite <- Zlt_Qlt in Hlow, Hup. lia.
Qed.

Lemma overlay_channel_labelled (vol : Np.ndarray Q) (seg : Np.ndarray Z)
      (lo hi : Q) (k c : nat) (label s b : Z) (v : Q) :
  voxel seg k = Some label -> voxel vol k = Some v ->
  grey_of lo hi v = Some b -> 0 < label ->
  nth_error (colour_of label) c = Some s -> (c < 3)%nat ->
  nth_error
    (flat_map (fun lg => pixel (fst lg) (snd lg))
       (combine (Np.data seg) (map (grey_of lo hi) (Np.data vol))))
    (3 * k + c)
  = Some (blend s (Some b)).
Proof.
  intros Hl Hv Hg Hpos Hs Hc.
  rewrite (overlay_voxel vol seg lo hi k c label v Hl Hv Hc).
  rewrite (pixel_nth label _ c s Hs).
  destruct (Z.ltb_spec 0 label); [|lia].
  now rewrite Hg.
Qed.

(** X18.  A coloured voxel is never grey.  Where the greyscale byte is
    determined, a voxel of class 1 or 2 has equal red and green channels and
    a blue channel 76 or 77 above them; a voxel of class 3 has equal green
    and blue channels and a red channel 76 or 77 above them. *)
Theorem X18_overlay_colour_visible (vol : Np.ndarray Q) (seg : Np.ndarray Z)
        (s0 s1 s2 : nat) :
  Np.wf seg -> Np.shape seg = [s0; s1; s2] -> Np.shape vol = Np.shape seg ->
  Np.data vol <> [] ->
  exists grey out,
    vol_greyscale vol = Ok grey /\
    overlay_segmentation vol seg = Ok out /\
    forall k label b,
      voxel seg k = Some label -> voxel grey k = Some (Some b) ->
      (label = 1 \/ label = 2 ->
       exists low high,
         channel out k 0 = Some (Some low) /\
         channel out k 1 = Some (Some low) /\
         channel out k 2 = Some (Some high) /\
         76 <= high - low <= 77) /\
      (label = 3 ->
       exists low high,
         channel out k 0 = Some (Some high) /\
         channel out k 1 = Some (Some low) /\
         channel out k 2 = Some (Some low) /\
         76 <= high - low <= 77).
Proof.
  intros Hwf Hs Hsame Hne.
  destruct (min_max_exist vol Hne) as [lo [hi [Hlo Hhi]]].
  do 2 eexists.
  split; [apply (vol_greyscale_ok vol lo hi Hlo Hhi)|].
  split; [apply (overlay_segmentation_ok vol seg s0 s1 s2 Hwf Hs Hsame lo hi Hlo Hhi)|].
  intros k label b Hl Hg.
  unfold voxel in Hg. cbn [Np.data] in Hg. rewrite nth_error_map in Hg.
  destruct (nth_error (Np.data vol) k) as [v|] eqn:Hv; [|discriminate].
  simpl in Hg. injection Hg as Hg.
  pose proof (grey_of_range lo hi v b Hg) as Hbyte.
  destruct (blend_nearest 0 b) as [low [Elow [_ Nlow]]];
    [now left|exact Hbyte|].
  destruct (blend_nearest 255 b) as [high [Ehigh [_ Nhigh]]];
    [now right|exact Hbyte|].
  pose proof (blend_gap low high b Nlow Nhigh) as Hgap.
  unfold channel. cbn [Np.data].
  split.
  - intros Hlab.
    assert (colour_of label = [0; 0; 255]) as Hcol
        by (destruct Hlab as [-> | ->]; reflexivity).
    assert (0 < label) as Hpos by lia.
    exists low, high. rewrite <- Elow, <- Ehigh.
    split; [apply (overlay_channel_labelled vol seg lo hi k 0 label 0 b v);
            auto; now rewrite Hcol|].
    split; [apply (overlay_channel_labelled vol seg lo hi k 1 label 0 b v);
            auto; now rewrite Hcol|].
    split; [apply (overlay_channel_labelled vol seg lo hi k 2 label 255 b v);
            auto; now rewrite Hcol|].
    exact Hgap.
  - intros ->.
    exists low, high. rewrite <- Elow, <- Ehigh.
    split; [apply (overlay_channel_labelled vol seg lo hi k 0 3 255 b v);
            auto; lia|].
    split; [apply (overlay_channel_labelled vol seg lo hi k 1 3 0 b v);
            auto; lia|].
    split; [apply (overlay_channel_labelled vol seg lo hi k 2 3 0 b v);
            auto; lia|].
    exact Hgap.
Qed.

Lemma X18_overlay_colour_visible_witness :
  (exists grey out,
     vol_greyscale tie_vol = Ok grey /\
     overlay_segmentation tie_vol tie_seg = Ok out /\
     forall k label b,
       voxel tie_seg k = Some label -> voxel grey k = Some (Some b) ->
       (label = 1 \/ label = 2 ->
        exists low high,
          channel out k 0 = Some (Some low) /\
          channel out k 1 = Some (Some low) /\
          channel out k 2 = Some (Some high) /\
          76 <= high - low <= 77) /\
       (label = 3 ->
        exists low high,
          channel out k 0 = Some (Some high) /\
          channel out k 1 = Some (Some low) /\
          channel out k 2 = Some (Some low) /\
          76 <= high - low <= 77))
  /\ blend 0 (Some 45) = Some 31 /\ blend 255 (Some 45) = Some 108
  /\ blend 0 (Some 165) = Some 115 /\ blend 255 (Some 165) = Some 192
  /\ blend 0 (Some 0) = Some 0 /\ blend 255 (Some 0) = Some 76.
Proof.
  split; [|repeat split; vm_compute; reflexivity].
  apply (X18_overlay_colour_visible tie_vol tie_seg 1 2 3).
  - reflexivity.
  - reflexivity.
  - reflexivity.
  - discriminate.
Defined.

(** * Properties of the visualization *)

Lemma squeeze_ok {A : Type} (a : Np.ndarray A) (s : list nat) :
  Np.shape a = s ++ [1%nat] ->
  Np.squeeze a = Ok (Np.mk_ndarray s (Np.data a)).
Proof.
  intros Hs. unfold Np.squeeze. rewrite Hs, rev_app_distr. simpl.
  now rewrite rev_involutive.
Qed.

Lemma squeeze_raises {A : Type} (a : Np.ndarray A) :
  ~ (exists s, Np.shape a = s ++ [1%nat]) ->
  Np.squeeze a = Raise ValueError.
Proof.
  intros Hn. unfold Np.squeeze.
  destruct (rev (Np.shape a)) as [|n r] eqn:E; [reflexivity|].
  destruct n as [|[|n]]; try reflexivity.
  exfalso. apply Hn. exists (rev r).
  rewrite <- (rev_involutive (Np.shape a)), E. reflexivity.
Qed.

Lemma squeeze_cases {A : Type} (a : Np.ndarray A) :
  (exists s, Np.shape a = s ++ [1%nat]
             /\ Np.squeeze a = Ok (Np.mk_ndarray s (Np.data a)))
  \/ (~ (exists s, Np.shape a = s ++ [1%nat])
      /\ Np.squeeze a = Raise ValueError).
Proof.
  destruct (rev (Np.shape a)) as [|n r] eqn:E.
  - right. assert (~ (exists s, Np.shape a = s ++ [1%nat])) as Hn.
    { intros [s Hs]. rewrite Hs, rev_app_distr in E. discriminate. }
    split; [exact Hn|now apply squeeze_raises].
  - destruct (Nat.eq_dec n 1) as [->|Hne].
    + left. exists (rev r).
      assert (Np.shape a = rev r ++ [1%nat]) as Hs
          by (rewrite <- (rev_involutive (Np.shape a)), E; reflexivity).
      split; [exact Hs|now apply squeeze_ok].
    + right. assert (~ (exists s, Np.shape a = s ++ [1%nat])) as Hn.
      { intros [s Hs]. rewrite Hs, rev_app_distr in E. simpl in E. congruence. }
      split; [exact Hn|now apply squeeze_raises].
Qed.

Lemma wf_squeezed {A : Type} (a : Np.ndarray A) (s : list nat) :
  Np.wf a -> Np.shape a = s ++ [1%nat] ->
  Np.wf (Np.mk_ndarray s (Np.data a)).
Proof.
  unfold Np.wf. cbn [Np.shape Np.data]. intros Hw Hs. rewrite Hw, Hs.
  unfold Np.size_of. rewrite fold_right_app. simpl.
  induction s as [|n s IH]; simpl; lia.
Qed.

Lemma nth_error_same_length {A B : Type} (p : list A) (t : list B)
      (k : nat) (x : A) :
  length p = length t -> nth_error p k = Some x ->
  exists y, nth_error t k = Some y.
Proof.
  intros Hlen Hx.
  destruct (nth_error t k) as [y|] eqn:E; [eauto|].
  apply nth_error_None in E.
  assert (k < length p)%nat by (apply nth_error_Some; congruence). lia.
Qed.

(** X19.  On an image, a ground truth and a prediction of shape
    (s0, s1, s2, 1), [visualize_evaluation] obtains two coloured volumes of
    shape (s0, s1, s2, 3), and the two agree, channel by channel, at every
    voxel to which ground truth and prediction give the same label. *)
Theorem X19_visualize_panels (vol : Np.ndarray Q) (truth pred : Np.ndarray Z)
        (s0 s1 s2 : nat) :
  Np.wf vol -> Np.wf truth -> Np.wf pred ->
  Np.shape vol = [s0; s1; s2; 1%nat] ->
  Np.shape truth = [s0; s1; s2; 1%nat] ->
  Np.shape pred = [s0; s1; s2; 1%nat] ->
  Np.data vol <> [] ->
  exists vol_truth vol_pred,
    visualize_overlays vol truth pred = Ok (vol_truth, vol_pred) /\
    Np.shape vol_truth = [s0; s1; s2; 3%nat] /\
    Np.shape vol_pred = [s0; s1; s2; 3%nat] /\
    forall k label,
      voxel truth k = Some label -> voxel pred k = Some label ->
      forall c, (c < 3)%nat ->
        channel vol_truth k c = channel vol_pred k c /\
        channel vol_truth k c <> None.
Proof.
  intros Hwv Hwt Hwp Hsv Hst Hsp Hne.
  destruct (min_max_exist vol Hne) as [lo [hi [Hlo Hhi]]].
  unfold visualize_overlays.
  rewrite (squeeze_ok vol [s0; s1; s2] Hsv).
  rewrite (squeeze_ok truth [s0; s1; s2] Hst).
  rewrite (squeeze_ok pred [s0; s1; s2] Hsp). cbn [bind].
  rewrite (overlay_segmentation_ok
             (Np.mk_ndarray [s0; s1; s2] (Np.data vol))
             (Np.mk_ndarray [s0; s1; s2] (Np.data truth)) s0 s1 s2
             (wf_squeezed truth [s0; s1; s2] Hwt Hst) eq_refl eq_refl
             lo hi Hlo Hhi).
  rewrite (overlay_segmentation_ok
             (Np.mk_ndarray [s0; s1; s2] (Np.data vol))
             (Np.mk_ndarray [s0; s1; s2] (Np.data pred)) s0 s1 s2
             (wf_squeezed pred [s0; s1; s2] Hwp Hsp) eq_refl eq_refl
             lo hi Hlo Hhi).
  cbn [bind Np.shape Np.data]. do 2 eexists.
  split; [reflexivity|]. split; [reflexivity|]. split; [reflexivity|].
  intros k label Ht Hp c Hc. unfold channel, voxel in *. cbn [Np.data].
  assert (length (Np.data truth) = length (Np.data vol)) as Hlen
      by (unfold Np.wf in *; congruence).
  destruct (nth_error_same_length _ (Np.data vol) k label Hlen Ht) as [v Hv].
  rewrite (overlay_voxel vol truth lo hi k c label v Ht Hv Hc).
  rewrite (overlay_voxel vol pred lo hi k c label v Hp Hv Hc).
  split; [reflexivity|].
  destruct (colour_of_nth label c Hc) as [s Hsc].
  rewrite (pixel_nth label _ c s Hsc). discriminate.
Qed.

Lemma X19_visualize_panels_witness :
  exists vol_truth vol_pred,
    visualize_overlays
      (Np.mk_ndarray [1; 2; 2; 1]%nat [0; 10; 5; 2]%Q)
      (Np.mk_ndarray [1; 2; 2; 1]%nat [0; 1; 2; 2])
      (Np.mk_ndarray [1; 2; 2; 1]%nat [0; 1; 1; 2])
    = Ok (vol_truth, vol_pred) /\
    Np.shape vol_truth = [1; 2; 2; 3]%nat /\
    Np.shape vol_pred = [1; 2; 2; 3]%nat /\
    forall k label,
      voxel (Np.mk_ndarray [1; 2; 2; 1]%nat [0; 1; 2; 2]) k = Some label ->
      voxel (Np.mk_ndarray [1; 2; 2; 1]%nat [0; 1; 1; 2]) k = Some label ->
      forall c, (c < 3)%nat ->
        channel vol_truth k c = channel vol_pred k c /\
        channel vol_truth k c <> None.
Proof.
  apply (X19_visualize_panels
           (Np.mk_ndarray [1; 2; 2; 1]%nat [0; 10; 5; 2]%Q)
           (Np.mk_ndarray [1; 2; 2; 1]%nat [0; 1; 2; 2])
           (Np.mk_ndarray [1; 2; 2; 1]%nat [0; 1; 1; 2]) 1 2 2).
  - reflexivity.
  - reflexivity.
  - reflexivity.
  - reflexivity.
  - reflexivity.
  - reflexivity.
  - discriminate.
Defined.

(** X20.  [visualize_evaluation] raises ValueError as soon as one of its
    three arrays has no last axis of length 1 to squeeze (an image with
    several channels, or a volume given without channel axis). *)
Theorem X20_visualize_needs_channel_axis (vol : Np.ndarray Q)
        (truth pred : Np.ndarray Z) :
  ~ (exists s, Np.shape vol = s ++ [1%nat]) \/
  ~ (exists s, Np.shape truth = s ++ [1%nat]) \/
  ~ (exists s, Np.shape pred = s ++ [1%nat]) ->
  visualize_overlays vol truth pred = Raise ValueError.
Proof.
  intros H. unfold visualize_overlays.
  destruct (squeeze_cases vol) as [[sv [Hsv ->]]|[Hnv ->]]; [|reflexivity].
  destruct (squeeze_cases truth) as [[st [Hst ->]]|[Hnt ->]]; [|reflexivity].
  destruct (squeeze_cases pred) as [[sp [Hsp ->]]|[Hnp ->]]; [|reflexivity].
  exfalso. destruct H as [H|[H|H]]; apply H; eauto.
Qed.

Lemma X20_visualize_needs_channel_axis_witness :
  visualize_overlays sample_vol sample_truth sample_pred = Raise ValueError.
Proof.
  apply X20_visualize_needs_channel_axis.
  left. intros [s Hs]. apply (f_equal (@rev nat)) in Hs.
  rewrite rev_app_distr in Hs. discriminate Hs.
Defined.

(** X21.  The scores do not depend on the channel axis: computed on the
    arrays as loaded, of shape (.., 1), they are the scores of the squeezed
    volumes that the visualization shows. *)
Theorem X21_scores_of_squeezed (truth pred truth' pred' : Np.ndarray Z)
        (classes : Z) :
  Np.shape truth = Np.shape pred ->
  Np.squeeze truth = Ok truth' -> Np.squeeze pred = Ok pred' ->
  calc_DSC truth' pred' classes = calc_DSC truth pred classes /\
  calc_Sensitivity truth' pred' classes
  = calc_Sensitivity truth pred classes /\
  calc_Specificity truth' pred' classes
  = calc_Specificity truth pred classes.
Proof.
  intros Hs Ht Hp.
  destruct (squeeze_cases truth) as [[st [Hst Et]]|[_ Et]];
    rewrite Et in Ht; [|discriminate].
  destruct (squeeze_cases pred) as [[sp [Hsp Ep]]|[_ Ep]];
    rewrite Ep in Hp; [|discriminate].
  injection Ht as <-. injection Hp as <-.
  assert (st = sp) as <-.
  { rewrite Hst, Hsp in Hs. now apply app_inv_tail in Hs. }
  rewrite (calc_DSC_ok truth pred Hs),
    (calc_Sensitivity_ok truth pred Hs), (calc_Specificity_ok truth pred Hs).
  rewrite (calc_DSC_ok (Np.mk_ndarray st (Np.data truth))
             (Np.mk_ndarray st (Np.data pred)) eq_refl).
  rewrite (calc_Sensitivity_ok (Np.mk_ndarray st (Np.data truth))
             (Np.mk_ndarray st (Np.data pred)) eq_refl).
  rewrite (calc_Specificity_ok (Np.mk_ndarray st (Np.data truth))
             (Np.mk_ndarray st (Np.data pred)) eq_refl).
  repeat split; reflexivity.
Qed.

Lemma X21_scores_of_squeezed_witness :
  calc_DSC sample_truth sample_pred 4
  = calc_DSC (Np.mk_ndarray [1; 2; 2; 1]%nat [0; 1; 2; 2])
             (Np.mk_ndarray [1; 2; 2; 1]%nat [0; 1; 1; 2]) 4 /\
  calc_Sensitivity sample_truth sample_pred 4
  = calc_Sensitivity (Np.mk_ndarray [1; 2; 2; 1]%nat [0; 1; 2; 2])
                     (Np.mk_ndarray [1; 2; 2; 1]%nat [0; 1; 1; 2]) 4 /\
  calc_Specificity sample_truth sample_pred 4
  = calc_Specificity (Np.mk_ndarray [1; 2; 2; 1]%nat [0; 1; 2; 2])
                     (Np.mk_ndarray [1; 2; 2; 1]%nat [0; 1; 1; 2]) 4.
Proof.
  apply (X21_scores_of_squeezed
           (Np.mk_ndarray [1; 2; 2; 1]%nat [0; 1; 2; 2])
           (Np.mk_ndarray [1; 2; 2; 1]%nat [0; 1; 1; 2])
           sample_truth sample_pred 4).
  - reflexivity.
  - reflexivity.
  - reflexivity.
Defined.

(** ** The name of the animation file *)

Lemma zfill_length (s : Str.str) (w : nat) :
  length (Str.zfill s w) = Nat.max w (length s).
Proof.
  unfold Str.zfill. destruct (Nat.leb_spec w (length s)) as [H|H]; [lia|].
  destruct s as [|c r]; cbn zeta.
  - rewrite repeat_length. simpl. lia.
  - destruct (Str.is_sign c); simpl length;
      rewrite ?length_app, repeat_length; simpl length; lia.
Qed.

Lemma zfill_long (s : Str.str) (w : nat) :
  (w <= length s)%nat -> Str.zfill s w = s.
Proof.
  intros H. unfold Str.zfill.
  destruct (Nat.leb_spec w (length s)); [reflexivity|lia].
Qed.

Lemma sign_not_zero (c : Ascii.ascii) (k : nat) (x y : Str.str) :
  Str.is_sign c = true ->
  c :: x <> repeat (Ascii.Ascii false false false false true true false false)
                   (S k) ++ y.
Proof.
  intros Hc H. simpl in H. injection H as -> _. discriminate Hc.
Qed.

Lemma zfill_inj (s s' : Str.str) (w : nat) :
  length s = length s' -> Str.zfill s w = Str.zfill s' w -> s = s'.
Proof.
  intros Hlen. unfold Str.zfill. rewrite <- Hlen.
  destruct (Nat.leb_spec w (length s)) as [H|H]; [auto|].
  destruct (w - length s)%nat as [|k] eqn:Ek; [lia|].
  destruct s as [|c r], s' as [|c' r']; try discriminate Hlen; [reflexivity|].
  cbn zeta.
  destruct (Str.is_sign c) eqn:Ec, (Str.is_sign c') eqn:Ec'; intros E.
  - injection E as -> E. apply app_inv_head in E. now subst.
  - exfalso. exact (sign_not_zero c k _ _ Ec E).
  - exfalso. exact (sign_not_zero c' k _ _ Ec' (eq_sym E)).
  - now apply app_inv_head in E.
Qed.

Lemma join_inj (p n n' : Str.str) :
  Str.starts_with_sep n = false -> Str.starts_with_sep n' = false ->
  Str.join p n = Str.join p n' -> n = n'.
Proof.
  intros Hn Hn'. unfold Str.join. rewrite Hn, Hn'.
  destruct (_ || _); intros E; apply app_inv_head in E; congruence.
Qed.

Lemma file_name_relative (case_id : Str.str) :
  Str.starts_with_sep (file_name case_id) = false.
Proof. reflexivity. Qed.

(** X22.  Two cases never share an animation file when their identifiers
    have the same length, or are both at least five characters long:
    different identifiers give different output paths in one directory. *)
Theorem X22_out_path_distinct (eva_path a b : Str.str) :
  (length a = length b \/ (5 <= length a /\ 5 <= length b))%nat ->
  a <> b ->
  out_path eva_path a <> out_path eva_path b.
Proof.
  intros Hlen Hab E. apply Hab. unfold out_path in E.
  apply join_inj in E; try apply file_name_relative.
  unfold file_name in E. apply app_inv_head in E. apply app_inv_tail in E.
  destruct Hlen as [Hlen|[Ha Hb]].
  - now apply (zfill_inj a b 5).
  - now rewrite !zfill_long in E by assumption.
Qed.

Lemma X22_out_path_distinct_witness :
  out_path Str.visualization_dir Str.case_3
  <> out_path Str.visualization_dir Str.case_7.
Proof.
  apply X22_out_path_distinct.
  - left. reflexivity.
  - discriminate.
Defined.

(** X23.  The file name is the identifier, padded with zeros to five
    characters when it is shorter, between "visualization." and ".gif": it
    has 18 characters more than the longer of the identifier and five. *)
Theorem X23_file_name_length (case_id : Str.str) :
  length (file_name case_id) = (18 + Nat.max 5 (length case_id))%nat.
Proof.
  unfold file_name. rewrite !length_app, zfill_length.
  change (length Str.visualization_prefix) with 14%nat.
  change (length Str.gif_suffix) with 4%nat. lia.
Qed.
